(** * ZapFillerWords: the segment-merge-and-splice engine

    A shallow embedding of [filler_remover15.py] (automatic filler and
    stutter removal) and [filler_remover16.py] (removal of hand-picked
    words), followed by the properties of the engine.

    Conventions of the embedding:
    - Python integers are [Z]; Python sets are [gset]; Python lists are
      [list]; a loop that grows an accumulator is a [foldl] over the
      iterated sequence.
    - Strings are Rocq [string]s and a character is an [ascii]: the
      embedding covers text in the ASCII range.
    - A word's timestamps are held in whole milliseconds, as the [Word]
      record of the specification has them ([start_ms], [end_ms]); the
      source's [int(word['start'] * 1000)] reads the field, and so does
      [word_b['start'] * 1000] in the gap test of [find_stutters] (for a
      time [x] that is not negative and integers [m] and [n], [x - m < n]
      holds of [x] exactly when it holds of the integer part of [x]). *)

From Stdlib Require Import ZArith List String Ascii Bool Lia SpecFloat.
From stdpp Require Import base list gmap strings sorting.
From stdpp Require Import pretty.

Open Scope Z_scope.

(** ** Python built-ins used by the two programs *)

Module Py.

(** [c.isalnum()] on the ASCII range: a digit or a letter. *)
Definition isalnum (c : ascii) : bool :=
  let n := Z.of_nat (nat_of_ascii c) in
  ((48 <=? n) && (n <=? 57)) || ((65 <=? n) && (n <=? 90))
  || ((97 <=? n) && (n <=? 122)).

Definition is_hyphen (c : ascii) : bool := Ascii.eqb c "-"%char.

(** [c.lower()] on the ASCII range. *)
Definition lower_char (c : ascii) : ascii :=
  let n := nat_of_ascii c in
  if ((65 <=? Z.of_nat n) && (Z.of_nat n <=? 90))
  then ascii_of_nat (n + 32) else c.

(** [s.lower()]. *)
Fixpoint lower (s : string) : string :=
  match s with
  | EmptyString => EmptyString
  | String c s' => String (lower_char c) (lower s')
  end.

(** ["".join(c for c in s if keep(c))]. *)
Fixpoint join_if (keep : ascii -> bool) (s : string) : string :=
  match s with
  | EmptyString => EmptyString
  | String c s' =>
      if keep c then String c (join_if keep s') else join_if keep s'
  end.

(** A string used as a condition is true when it is not empty. *)
Definition truthy (s : string) : bool :=
  match s with EmptyString => false | String _ _ => true end.

(** [s.endswith(suffix)]. *)
Definition endswith (s suffix : string) : bool :=
  let n := String.length s in
  let k := String.length suffix in
  (k <=? n)%nat && String.eqb (substring (n - k) k s) suffix.

(** Order of Python tuples [(a, b)] of integers: lexicographic. *)
Definition tuple_le (x y : Z * Z) : Prop :=
  x.1 < y.1 \/ (x.1 = y.1 /\ x.2 <= y.2).

#[global] Instance tuple_le_dec : RelDecision tuple_le.
Proof. intros x y. unfold tuple_le. apply _. Defined.

(** [sorted(l)] on a list of integer pairs.  Two pairs that compare equal
    are the same pair, so the sorted list does not depend on the sorting
    algorithm. *)
Definition sorted (l : list (Z * Z)) : list (Z * Z) := merge_sort tuple_le l.

(** Exceptions the programs can meet, by class. *)
Inductive exn : Type :=
  | JSONDecodeError | TypeError | ValueError | OverflowError | IndexError.

(** The outcome of evaluating Python code: a value, or a raised exception. *)
Inductive result (A : Type) : Type :=
  | Return (a : A)
  | Raise (e : exn).
Arguments Return {A} a.
Arguments Raise {A} e.

#[global] Instance result_ret : MRet result := fun A a => Return a.
#[global] Instance result_bind : MBind result := fun A B f m =>
  match m with Return a => f a | Raise e => Raise e end.

(** A [for] loop whose body may raise: the loop stops at the first
    exception. *)
Fixpoint for_each {A B : Type} (body : A -> B -> result A) (acc : A)
    (l : list B) : result A :=
  match l with
  | [] => Return acc
  | x :: l' => acc' ← body acc x; for_each body acc' l'
  end.

(** [s.rfind(c)], with [-1] when [c] does not occur. *)
Fixpoint rfind (c : ascii) (s : string) : Z :=
  match s with
  | EmptyString => -1
  | String a s' =>
      let r := rfind c s' in
      if 0 <=? r then r + 1 else if Ascii.eqb a c then 0 else -1
  end.

(** [s[i:]] and [s[:i]] for [0 <= i]. *)
Definition str_from (i : Z) (s : string) : string :=
  substring (Z.to_nat i) (String.length s - Z.to_nat i) s.
Definition str_upto (i : Z) (s : string) : string :=
  substring 0 (Z.to_nat i) s.

(** [os.path.basename(p)] (POSIX). *)
Definition basename (p : string) : string := str_from (rfind "/" p + 1) p.

(** [os.path.splitext(p)] (POSIX): the extension starts at the last dot of
    the last path component, unless only dots precede it there. *)
Definition splitext (p : string) : string * string :=
  let sepIndex := rfind "/" p in
  let dotIndex := rfind "." p in
  if (sepIndex <? dotIndex)
     && existsb (fun k => negb (bool_decide (get k p = Some "."%char)))
          (seq (Z.to_nat (sepIndex + 1)) (Z.to_nat (dotIndex - sepIndex - 1)))
  then (str_upto dotIndex p, str_from dotIndex p)
  else (p, EmptyString).

(** Characters that [int()] strips from both ends of a string. *)
Definition isspace (c : ascii) : bool :=
  let n := Z.of_nat (nat_of_ascii c) in
  ((9 <=? n) && (n <=? 13)) || ((28 <=? n) && (n <=? 32)).

Definition digit_of (c : ascii) : option Z :=
  let n := Z.of_nat (nat_of_ascii c) in
  if (48 <=? n) && (n <=? 57) then Some (n - 48) else None.

(** Digits of a decimal literal; single underscores may separate digits.
    [prev] tells whether the previous character was a digit. *)
Fixpoint digits_value (prev : bool) (acc : Z) (l : list ascii) : option Z :=
  match l with
  | [] => if prev then Some acc else None
  | c :: l' =>
      match digit_of c with
      | Some d => digits_value true (10 * acc + d) l'
      | None =>
          if Ascii.eqb c "_" && prev then digits_value false acc l' else None
      end
  end.

Fixpoint lstrip (l : list ascii) : list ascii :=
  match l with
  | c :: l' => if isspace c then lstrip l' else l
  | [] => []
  end.

(** [int(s)] for a string [s], base 10; [None] stands for [ValueError].
    (The cap that recent interpreters put on the number of digits is not
    modelled.) *)
Definition int_of_str (s : string) : option Z :=
  let body := rev (lstrip (rev (lstrip (list_ascii_of_string s)))) in
  match body with
  | c :: l' =>
      if Ascii.eqb c "-" then Z.opp <$> digits_value false 0 l'
      else if Ascii.eqb c "+" then digits_value false 0 l'
      else digits_value false 0 body
  | [] => None
  end.

(** [int(x)] for a float [x]: truncation toward zero. *)
Definition int_of_float (x : spec_float) : result Z :=
  match x with
  | S754_zero _ => Return 0
  | S754_infinity _ => Raise OverflowError
  | S754_nan => Raise ValueError
  | S754_finite s m e =>
      let v := if 0 <=? e then Z.pos m * 2 ^ e else Z.pos m / 2 ^ (- e) in
      Return (if s then - v else v)
  end.

End Py.

(** ** filler_remover15.py: detection *)

Record Word := { word : string; start_ms : Z; end_ms : Z }.
Record Segment := { words : list Word }.

Module FillerRemover15.

Definition FILLER_WORDS : gset string :=
  list_to_set ["um"; "uh"; "er"; "hmm"; "mhm"; "uh-huh"; "um-hum"; "umm";
               "uhh"; "erm"; "ooh"]%string.

Definition EXCLUSIONS : gset string := list_to_set ["a"; "and"; "the"]%string.

(** A detection: [(start_ms, end_ms, label)]. *)
Definition Detection : Type := Z * Z * string.

Definition find_fillers (segments : list Segment) (filler_list : gset string)
  : list Detection :=
  foldl (fun detected seg =>
    foldl (fun detected w =>
      let clean_word := Py.join_if Py.isalnum (word w) in
      if bool_decide (clean_word ∈ EXCLUSIONS) then detected
      else if bool_decide (clean_word ∈ filler_list)
           then detected ++ [(start_ms w, end_ms w, clean_word)]
           else detected)
      detected (words seg))
    [] segments.

(** [all_words.extend(seg['words'])] for each segment. *)
Definition all_words_of (segments : list Segment) : list Word :=
  foldl (fun all_words seg => all_words ++ words seg) [] segments.

Definition clean_stutter (w : Word) : string :=
  Py.join_if (fun c => Py.isalnum c || Py.is_hyphen c) (word w).

Definition find_stutters (segments : list Segment) : list Detection :=
  let all_words := all_words_of segments in
  foldl (fun stutters i =>
    match all_words !! i, all_words !! S i with
    | Some word_a, Some word_b =>
        let clean_a := clean_stutter word_a in
        let clean_b := clean_stutter word_b in
        if bool_decide (clean_a ∈ EXCLUSIONS) then stutters
        else if Py.truthy clean_a && String.eqb clean_a clean_b then
          let start := start_ms word_a in
          let end_ := end_ms word_a in
          if start_ms word_b - end_ <? 200
          then stutters ++ [(start, end_, "STUTTER: " +:+ clean_a)]
          else stutters
        else stutters
    | _, _ => stutters
    end)
    [] (seq 0 (length all_words - 1)).

End FillerRemover15.

(** ** The audio buffer *)

Module Pydub.

Import Py.

(** Modelled from the spec: what pydub, a third-party library that is not
    part of the sources, computes inside one frame of audio: the sum of
    two overlaid frames, the gains of a fade, the samples of the sine
    generator. *)
Class SampleOps (Sample : Type) := {
  (** [audioop.add]: the frame heard when two frames play together. *)
  audioop_add : Sample -> Sample -> Sample;
  (** frame [k] of a fade to / from -120 dB that lasts [n] frames *)
  fade_out : nat -> nat -> Sample -> Sample;
  fade_in : nat -> nat -> Sample -> Sample;
  (** frame [k] of [Sine(1000).to_audio_segment(...).apply_gain(-6)] *)
  beep_sample : nat -> Sample }.

Section Buffer.
Context {Sample : Type}.

(** Modelled from the spec: pydub's [AudioSegment], the audio buffer of
    the data model (section 3), a timeline of [total_duration_ms]
    milliseconds that is sliced by millisecond offsets.  It is a list with
    one frame per millisecond; lengths and offsets are in milliseconds. *)
Definition AudioSegment : Type := list Sample.

(** [AudioSegment.empty()] *)
Definition empty : AudioSegment := [].

(** [len(seg)], in milliseconds *)
Definition len (seg : AudioSegment) : Z := Z.of_nat (length seg).

(** A negative offset counts from the end of the buffer.  (Both programs
    only pass offsets that are at least [-len].) *)
Definition parse_position (seg : AudioSegment) (val : Z) : Z :=
  if val <? 0 then Z.max 0 (len seg - Z.abs val) else val.

(** [seg[start:stop]]; [None] is an omitted bound.  Bounds beyond the end
    are cut back to the end. *)
Definition getslice (seg : AudioSegment) (start stop : option Z)
  : AudioSegment :=
  let start := default 0 start in
  let stop := default (len seg) stop in
  let start := Z.min start (len seg) in
  let stop := Z.min stop (len seg) in
  let start := parse_position seg start in
  let stop := parse_position seg stop in
  take (Z.to_nat (stop - start)) (drop (Z.to_nat start) seg).

(** [seg1 + seg2]: one buffer after the other. *)
Definition add (seg1 seg2 : AudioSegment) : AudioSegment := seg1 ++ seg2.

Context `{!SampleOps Sample}.

(** [seg1.overlay(seg2, position=position)]: [seg2] is mixed into [seg1]
    from [position] on and cut off at the end of [seg1]. *)
Definition overlay (seg1 seg2 : AudioSegment) (position : Z) : AudioSegment :=
  let head := getslice seg1 None (Some position) in
  let rest := getslice seg1 (Some position) None in
  let seg2 := if len rest <=? len seg2 then take (length rest) seg2 else seg2 in
  head ++ zip_with audioop_add (take (length seg2) rest) seg2
       ++ drop (length seg2) rest.

(** [seg1.append(seg2, crossfade=crossfade)] *)
Definition append (seg1 seg2 : AudioSegment) (crossfade : Z)
  : result AudioSegment :=
  if crossfade =? 0 then Return (add seg1 seg2)
  else if len seg1 <? crossfade then Raise ValueError
  else if len seg2 <? crossfade then Raise ValueError
  else
    let n := Z.to_nat crossfade in
    let xf_out := imap (fun k => fade_out k n)
                       (getslice seg1 (Some (- crossfade)) None) in
    let xf_in := imap (fun k => fade_in k n)
                      (getslice seg2 None (Some crossfade)) in
    Return (getslice seg1 None (Some (- crossfade))
            ++ zip_with audioop_add xf_out xf_in
            ++ getslice seg2 (Some crossfade) None).

(** [Sine(1000).to_audio_segment(duration=d).apply_gain(-6)] *)
Definition beep_of (duration : Z) : AudioSegment :=
  map beep_sample (seq 0 (Z.to_nat duration)).

End Buffer.
Arguments AudioSegment : clear implicits.

Inductive Format : Type := mp3 | flac | wav.

(** [audio.export(path, format=...)]: the file written. *)
Record Export (Sample : Type) : Type :=
  { exported : AudioSegment Sample; to_file : string; format : Format }.
Arguments exported {Sample} _.
Arguments to_file {Sample} _.
Arguments format {Sample} _.

End Pydub.

(** ** filler_remover15.py: merge and splice *)

Module Splice15.

Import Py Pydub FillerRemover15.

(** Lines 117-122, the body of the merging loop: the interval is widened
    by the lookback and the padding, kept inside the audio, and then
    either closes into the last cut or starts a new one. *)
Definition merge_step (duration_ms padding_ms start_offset_ms : Z)
    (merged_cuts : list (Z * Z)) (seg : Z * Z) : list (Z * Z) :=
  let start := Z.max 0 (seg.1 - start_offset_ms) in
  let end_ := Z.min duration_ms (seg.2 + padding_ms) in
  match last merged_cuts with
  | Some prev =>
      if start <=? prev.2
      then <[(length merged_cuts - 1)%nat := (prev.1, Z.max prev.2 end_)]>
             merged_cuts
      else merged_cuts ++ [(start, end_)]
  | None => merged_cuts ++ [(start, end_)]
  end.

(** Lines 114-122 on the time intervals: sort, then widen and merge. *)
Definition merge (duration_ms padding_ms start_offset_ms : Z)
    (intervals : list (Z * Z)) : list (Z * Z) :=
  let segments_time := Py.sorted intervals in
  foldl (merge_step duration_ms padding_ms start_offset_ms) [] segments_time.

(** Lines 114-122: [merged_cuts] of [segments_to_remove]. *)
Definition merge_cuts (duration_ms : Z) (segments_to_remove : list Detection)
    (padding_ms start_offset_ms : Z) : list (Z * Z) :=
  merge duration_ms padding_ms start_offset_ms
    (map (fun d => (d.1.1, d.1.2)) segments_to_remove).

Section Reassemble.
Context {Sample : Type} `{!SampleOps Sample}.

(** Lines 127-132: debug mode, a beep over every cut. *)
Definition beep_mode (original_audio : AudioSegment Sample)
    (merged_cuts : list (Z * Z)) : AudioSegment Sample :=
  foldl (fun processed_audio cut =>
    let beep_duration := cut.2 - cut.1 in
    if beep_duration <? 1 then processed_audio
    else overlay processed_audio (beep_of beep_duration) cut.1)
    original_audio merged_cuts.

(** Lines 139-142 and 147-150: join a kept span to the output. *)
Definition join (processed_audio segment : AudioSegment Sample)
    (crossfade_ms : Z) : result (AudioSegment Sample) :=
  if (0 <? len processed_audio) && (0 <? crossfade_ms)
  then append processed_audio segment crossfade_ms
  else Return (add processed_audio segment).

(** Lines 137-143, the body of the cutting loop: the audio from the
    cursor [last_pos] to the cut is kept, and the cursor moves to the end
    of the cut. *)
Definition cut_step (original_audio : AudioSegment Sample) (crossfade_ms : Z)
    (st : AudioSegment Sample * Z) (cut : Z * Z)
  : result (AudioSegment Sample * Z) :=
  let '(processed_audio, last_pos) := st in
  processed_audio ←
    (if last_pos <? cut.1
     then join processed_audio
            (getslice original_audio (Some last_pos) (Some cut.1))
            crossfade_ms
     else Return processed_audio);
  Return (processed_audio, cut.2).

(** Lines 134-150: the audio between the cuts, joined. *)
Definition cut_mode (original_audio : AudioSegment Sample)
    (merged_cuts : list (Z * Z)) (crossfade_ms : Z)
  : result (AudioSegment Sample) :=
  let duration_ms := len original_audio in
  st ← for_each (cut_step original_audio crossfade_ms) (empty, 0) merged_cuts;
  let '(processed_audio, last_pos) := st in
  if last_pos <? duration_ms
  then join processed_audio (getslice original_audio (Some last_pos) None)
         crossfade_ms
  else Return processed_audio.

(** Lines 152-154: the format named by the output file. *)
Definition out_format_of (output_file : string) : Format :=
  if endswith (lower output_file) ".flac" then flac
  else if endswith (lower output_file) ".wav" then wav
  else mp3.

(** [process_audio_pydub], from the loaded [original_audio] on.  Its
    value is the file it exports.  The source's defaults are
    [debug_beep=False], [padding_ms=50], [start_offset_ms=100] and
    [crossfade_ms=10]. *)
Definition process_audio_pydub (original_audio : AudioSegment Sample)
    (output_file : string) (segments_to_remove : list Detection)
    (debug_beep : bool) (padding_ms start_offset_ms crossfade_ms : Z)
  : result (Export Sample) :=
  let duration_ms := len original_audio in
  match segments_to_remove with
  | [] => Return {| exported := original_audio; to_file := output_file;
                    format := mp3 |}
  | _ :: _ =>
      let merged_cuts :=
        merge_cuts duration_ms segments_to_remove padding_ms start_offset_ms in
      processed_audio ←
        (if debug_beep then Return (beep_mode original_audio merged_cuts)
         else cut_mode original_audio merged_cuts crossfade_ms);
      Return {| exported := processed_audio; to_file := output_file;
                format := out_format_of output_file |}
  end.

End Reassemble.
End Splice15.

(** ** filler_remover16.py: removal of the words picked by hand *)

Module FillerRemover16.

Import Py Pydub.

(** What [json.loads] can return; a dictionary is the list of its items,
    in the order of its keys. *)
#[warnings="-register-all"]
Inductive json : Type :=
  | JNull
  | JBool (b : bool)
  | JInt (n : Z)
  | JFloat (x : spec_float)
  | JStr (s : string)
  | JList (l : list json)
  | JDict (items : list (string * json)).

(** [for i in v]: a list yields its elements, a string its characters, a
    dictionary its keys; nothing else can be iterated. *)
Definition iterate (v : json) : result (list json) :=
  match v with
  | JList l => Return l
  | JStr s => Return (map (fun c => JStr (String c EmptyString))
                          (list_ascii_of_string s))
  | JDict items => Return (map (fun kv => JStr kv.1) items)
  | JNull | JBool _ | JInt _ | JFloat _ => Raise TypeError
  end.

(** [int(v)] *)
Definition int (v : json) : result Z :=
  match v with
  | JInt n => Return n
  | JBool b => Return (if b then 1 else 0)
  | JFloat x => int_of_float x
  | JStr s => match int_of_str s with
              | Some n => Return n
              | None => Raise ValueError
              end
  | JNull | JList _ | JDict _ => Raise TypeError
  end.

(** The transcript; [start_ms] and [end_ms] hold [int(item['start'] * 1000)]
    and [int(item['end'] * 1000)] of the source's times in seconds. *)
Definition MOCK_TRANSCRIPT_DATA : list Word :=
  [ {| word := "Hello,"; start_ms := 100; end_ms := 500 |};
    {| word := "um,"; start_ms := 550; end_ms := 800 |};
    {| word := "this"; start_ms := 900; end_ms := 1200 |};
    {| word := "is"; start_ms := 1250; end_ms := 1400 |};
    {| word := "a"; start_ms := 1450; end_ms := 1500 |};
    {| word := "test"; start_ms := 1550; end_ms := 1900 |};
    {| word := "of"; start_ms := 1950; end_ms := 2100 |};
    {| word := "the"; start_ms := 2150; end_ms := 2300 |};
    {| word := "filler"; start_ms := 2350; end_ms := 2700 |};
    {| word := "remover,"; start_ms := 2750; end_ms := 3200 |};
    {| word := "ah,"; start_ms := 3300; end_ms := 3600 |};
    {| word := "and"; start_ms := 3650; end_ms := 3800 |};
    {| word := "you"; start_ms := 3850; end_ms := 4000 |};
    {| word := "can"; start_ms := 4050; end_ms := 4200 |};
    {| word := "select"; start_ms := 4250; end_ms := 4600 |};
    {| word := "words"; start_ms := 4650; end_ms := 4900 |};
    {| word := "to"; start_ms := 4950; end_ms := 5050 |};
    {| word := "remove,"; start_ms := 5100; end_ms := 5500 |};
    {| word := "uh,"; start_ms := 5550; end_ms := 5800 |};
    {| word := "manually."; start_ms := 5850; end_ms := 6500 |} ]%string.

Definition generate_blank_output_path (input_path suffix : string) : string :=
  let '(base, ext) := splitext input_path in
  let clean_base := basename base in
  clean_base +:+ suffix +:+ ext.

(** Line 86: [{int(i) for i in json.loads(selected_indices_json)}], from
    the decoded value on. *)
Definition selected_indices_of (loaded : json) : result (gset Z) :=
  items ← iterate loaded;
  for_each (fun (acc : gset Z) i => n ← int i; Return ({[n]} ∪ acc))
    ∅ items.

(** [transcript[i]], with Python's indexing from the end for [i < 0]. *)
Definition getitem (transcript : list Word) (i : Z) : result Word :=
  let n := Z.of_nat (length transcript) in
  let j := if i <? 0 then i + n else i in
  if (0 <=? j) && (j <? n)
  then match transcript !! Z.to_nat j with
       | Some w => Return w
       | None => Raise IndexError
       end
  else Raise IndexError.

Section Edit.
Context {Sample : Type}.

(** Lines 104-126, the body of the loop over the transcript: a selected
    word is passed over; a kept word appends the audio since the last
    kept word and then its own audio. *)
Definition edit_step (audio : AudioSegment Sample) (selected_indices : gset Z)
    (st : AudioSegment Sample * Z) (ix : nat * Word)
  : AudioSegment Sample * Z :=
  let '(new_audio, last_kept_end_ms) := st in
  let '(i, item) := ix in
  let start_ms := start_ms item in
  let end_ms := end_ms item in
  if bool_decide (Z.of_nat i ∈ selected_indices) then st
  else
    let silent_gap :=
      getslice audio (Some last_kept_end_ms) (Some start_ms) in
    let word_segment := getslice audio (Some start_ms) (Some end_ms) in
    (add (add new_audio silent_gap) word_segment, end_ms).

(** Lines 100-130: the new audio. *)
Definition edit_audio (audio : AudioSegment Sample) (transcript : list Word)
    (selected_indices : gset Z) : AudioSegment Sample :=
  let '(new_audio, last_kept_end_ms) :=
    foldl (edit_step audio selected_indices) (empty, 0)
          (imap pair transcript) in
  if last_kept_end_ms <? len audio
  then add new_audio (getslice audio (Some last_kept_end_ms) None)
  else new_audio.

(** A run of [process_edited_audio]: the files it wrote and how it ended,
    with the returned pair [(output path or None, message)]. *)
Record Run : Type :=
  { written : list (Export Sample);
    outcome : result (option string * string) }.

(** [process_edited_audio].  [selected_indices_json] is given by what
    [json.loads] makes of it, and [from_file] by what
    [AudioSegment.from_file] makes of the path: the audio, or the text of
    the exception it raised.  (The order in which a Python set yields its
    members is an internal matter of the interpreter; the log names the
    removed words in the order of [elements], and nothing else depends on
    the order.) *)
Definition process_edited_audio (original_audio_path : option string)
    (selected_indices_json : result json)
    (from_file : string -> AudioSegment Sample + string) : Run :=
  match original_audio_path with
  | None =>
      {| written := [];
         outcome :=
           Return (None,
                   "Error: No original audio file found to process."%string) |}
  | Some path =>
      match selected_indices_json ≫= selected_indices_of with
      | Raise JSONDecodeError =>
          {| written := [];
             outcome :=
               Return (None,
                       "Error: Could not parse selected words."%string) |}
      | Raise e => {| written := []; outcome := Raise e |}
      | Return selected_indices =>
          let transcript := MOCK_TRANSCRIPT_DATA in
          match from_file path with
          | inr e =>
              {| written := [];
                 outcome := Return (None, "Error loading audio file: " +:+ e) |}
          | inl audio =>
              let new_audio := edit_audio audio transcript selected_indices in
              let output_path := generate_blank_output_path path "_edited" in
              let file := {| exported := new_audio; to_file := output_path;
                             format := mp3 |} in
              {| written := [file];
                 outcome :=
                   removed_words ←
                     for_each (fun acc i =>
                                 w ← getitem transcript i;
                                 Return (acc ++ [word w]))
                       [] (elements selected_indices);
                   Return
                     (Some output_path,
                      match removed_words with
                      | [] =>
                          "No words were selected for removal. "
                          +:+ "Original audio logic applied "
                          +:+ "(though no changes were made)."
                      | _ =>
                          "Successfully removed the following segments "
                          +:+ "(words selected by user): "
                          +:+ String.concat ", " removed_words
                      end) |}
          end
      end
  end.

End Edit.
End FillerRemover16.

(** ** filler_remover15.py: transcription and the Gradio handler *)

Module PyText.

Import Py.

(** [s.strip()]: white space is removed from both ends. *)
Definition strip (s : string) : string :=
  string_of_list_ascii
    (rev (lstrip (rev (lstrip (list_ascii_of_string s))))).

(** [s.split(sep)] for a separator of one character: the pieces between
    the separators, empty pieces included. *)
Fixpoint split (sep : ascii) (s : string) : list string :=
  match s with
  | EmptyString => [EmptyString]
  | String c s' =>
      if Ascii.eqb c sep then EmptyString :: split sep s'
      else match split sep s' with
           | piece :: pieces => String c piece :: pieces
           | [] => [String c EmptyString]
           end
  end.

End PyText.

Module Gradio15.

Import Py PyText Pydub FillerRemover15 Splice15.

(** A word and a segment as the speech recognizer returns them; the times
    are in whole milliseconds, like those of [Word].  [segment.words] can
    be [None]. *)
Record WhisperWord := { heard : string; heard_start_ms : Z; heard_end_ms : Z }.
Record WhisperSegment := { heard_words : option (list WhisperWord) }.

(** Lines 41-51: the segments handed on, with every word stripped and in
    lower case. *)
Definition result_segments_of (segments : list WhisperSegment)
  : list Segment :=
  foldl (fun result_segments segment =>
    let words :=
      match heard_words segment with
      | Some heard_list =>
          foldl (fun words w =>
                   words ++ [ {| word := lower (strip (heard w));
                                 start_ms := heard_start_ms w;
                                 end_ms := heard_end_ms w |} ])
                [] heard_list
      | None => []
      end in
    result_segments ++ [ {| words := words |} ])
    [] segments.

(** [transcribe_audio].  The recognizer is given by what it returns for
    the file: its segments, or the text of the exception it raised.  An
    exception is raised again as [Exception("Transcription failed: ...")],
    here the text on the right. *)
Definition transcribe_audio (recognized : list WhisperSegment + string)
  : list Segment + string :=
  match recognized with
  | inl segments => inl (result_segments_of segments)
  | inr e => inr ("Transcription failed: " +:+ e)
  end.

(** Line 171: the filler list in force. *)
Definition fillers_list_of (custom_words : string) : gset string :=
  if truthy (strip custom_words)
  then list_to_set ((fun w => lower (strip w)) <$> split "," custom_words)
  else FILLER_WORDS.

(** Lines 164-165: the extension of the output file. *)
Definition out_ext_of (audio : string) : string :=
  let in_ext := lower (splitext audio).2 in
  if bool_decide (in_ext ∈ [".flac"; ".wav"; ".mp3"]%string) then in_ext
  else ".mp3"%string.

Section Handler.
Context {Sample : Type} `{!SampleOps Sample}.

(** A run of [process_gradio]: the pairs [(output, status)] it yields,
    the temporary file it creates and the files it exports. *)
Record GradioRun : Type :=
  { yields : list (option string * string);
    tempfiles : list string;
    exports : list (Export Sample) }.

(** [process_gradio], a generator.  The surroundings are parameters:
    [recognized] is what the recognizer makes of the file, [from_file]
    what [AudioSegment.from_file] makes of a path (the audio, or the text
    of its exception), [tmp_stem] the directory and random part of the
    name that [NamedTemporaryFile] chooses (the suffix comes last), and
    [str_exn] the text of an exception raised while splicing.  The
    arguments [model] and [gpu] only reach the recognizer. *)
Definition process_gradio (audio : option string)
    (recognized : list WhisperSegment + string)
    (from_file : string -> AudioSegment Sample + string)
    (tmp_stem : string) (str_exn : exn -> string)
    (pad lookback crossfade : Z) (custom_words : string) (debug_mode : bool)
  : GradioRun :=
  match audio with
  | None | Some EmptyString =>
      (* [return None, "Please upload a file."] in a generator yields
         nothing *)
      {| yields := []; tempfiles := []; exports := [] |}
  | Some audio =>
      let out_ext := out_ext_of audio in
      let output_file := tmp_stem +:+ out_ext in
      let step1 :=
        (None, "Step 1/3: Transcribing (Final Safety Check)..."%string) in
      let failed (steps : list (option string * string)) (e : string) :=
        {| yields := steps ++ [(None, "Error: " +:+ e)];
           tempfiles := [output_file]; exports := [] |} in
      match transcribe_audio recognized with
      | inr e => failed [step1] e
      | inl segments =>
          let fillers_list := fillers_list_of custom_words in
          let detected_fillers := find_fillers segments fillers_list in
          let detected_stutters := find_stutters segments in
          let detected := detected_fillers ++ detected_stutters in
          match detected with
          | [] =>
              {| yields :=
                   [step1; (Some audio, "No disfluencies found."%string)];
                 tempfiles := [output_file]; exports := [] |}
          | _ :: _ =>
              let action :=
                if debug_mode then "BEEPING"%string else "CUTTING"%string in
              let step2 :=
                (None,
                 "Found " +:+ pretty (length detected_fillers)
                 +:+ " fillers and " +:+ pretty (length detected_stutters)
                 +:+ " stutters. Step 2/3: " +:+ action +:+ " audio...") in
              match from_file audio with
              | inr e => failed [step1; step2] e
              | inl original_audio =>
                  match process_audio_pydub original_audio output_file
                          detected debug_mode pad lookback crossfade with
                  | Raise e => failed [step1; step2] (str_exn e)
                  | Return file =>
                      let result_msg :=
                        "Done! " +:+ action +:+ " "
                        +:+ pretty (length detected)
                        +:+ " total disfluencies." in
                      let result_msg :=
                        if debug_mode
                        then result_msg
                             +:+ String "010"
                                   "(Audio has beeps over detected words. "
                             +:+ "Uncheck 'Debug Mode' to actually remove them.)"
                        else result_msg in
                      {| yields := [step1; step2;
                                    (Some output_file, result_msg)];
                         tempfiles := [output_file];
                         exports := [file] |}
                  end
              end
          end
      end
  end.

End Handler.
End Gradio15.

(** ** The stutter rule in the words of the specification

    Section 4.3: both words are normalized, "alphanumeric and hyphen
    characters retained, lower-cased"; the pair is skipped when the first
    normal form is in the exclusion set, and flagged when the two normal
    forms are equal and non-empty and the gap is below 200 ms. *)

Module StutterRule.

Import Py FillerRemover15.

Definition normalized (w : Word) : string :=
  lower (join_if (fun c => isalnum c || is_hyphen c) (word w)).

Definition is_stutter (a b : Word) : bool :=
  negb (bool_decide (normalized a ∈ EXCLUSIONS))
  && truthy (normalized a)
  && String.eqb (normalized a) (normalized b)
  && (start_ms b - end_ms a <? 200).

(** The detections of a word sequence: one for each word that forms a
    stutter with its successor. *)
Fixpoint stutters (ws : list Word) : list Detection :=
  match ws with
  | a :: ((b :: _) as rest) =>
      (if is_stutter a b
       then [(start_ms a, end_ms a, "STUTTER: " +:+ normalized a)]
       else [])
      ++ stutters rest
  | _ => []
  end.

End StutterRule.

(** ** Notions used in the statements and proofs *)

Import Py Pydub FillerRemover15 Splice15 FillerRemover16.
Import PyText Gradio15.

(** What one pair of neighbours adds to [stutters] in [find_stutters]. *)
Definition stutter_of_pair (word_a word_b : Word) : list Detection :=
  let clean_a := clean_stutter word_a in
  let clean_b := clean_stutter word_b in
  if bool_decide (clean_a ∈ EXCLUSIONS) then []
  else if truthy clean_a && String.eqb clean_a clean_b then
    if start_ms word_b - end_ms word_a <? 200
    then [(start_ms word_a, end_ms word_a, "STUTTER: " +:+ clean_a)]
    else []
  else [].

(** The pairs of neighbours of a list, each mapped to its detections. *)
Fixpoint neighbours (f : Word -> Word -> list Detection) (ws : list Word)
  : list Detection :=
  match ws with
  | a :: ((b :: _) as rest) => f a b ++ neighbours f rest
  | _ => []
  end.

(** What the loop of [find_stutters] does at index [i], when a pair of
    neighbours adds [f a b]. *)
Definition at_index (f : Word -> Word -> list Detection) (ws : list Word)
    (acc : list Detection) (i : nat) : list Detection :=
  match ws !! i, ws !! S i with
  | Some a, Some b => acc ++ f a b
  | _, _ => acc
  end.

(** Two cuts are apart when the first ends before the second starts. *)
Definition apart (a b : Z * Z) : Prop := a.2 < b.1.

(** A cut lies in the audio when [0 <= start <= end <= duration]. *)
Definition within (duration_ms : Z) (c : Z * Z) : Prop :=
  0 <= c.1 /\ c.1 <= c.2 /\ c.2 <= duration_ms.

(** The interval after widening, as lines 117 and 118 compute it. *)
Definition widened (duration_ms padding_ms start_offset_ms : Z) (seg : Z * Z)
  : Z * Z :=
  (Z.max 0 (seg.1 - start_offset_ms), Z.min duration_ms (seg.2 + padding_ms)).



(** The words follow each other from [pos] on: every word starts at or
    after the end of the one before. *)
Fixpoint words_in_order (pos : Z) (ws : list Word) : Prop :=
  match ws with
  | [] => True
  | w :: ws' =>
      pos <= start_ms w /\ start_ms w <= end_ms w
      /\ words_in_order (end_ms w) ws'
  end.

(** The offset at which [seg[:p]] ends and [seg[p:]] starts. *)
Definition split_point {Sample : Type} (seg : AudioSegment Sample) (p : Z)
  : nat :=
  Z.to_nat (parse_position seg (Z.min p (len seg))).

(** Frames as integer amplitudes, for the examples: frames add up, fades
    are linear, and the beep is a square wave. *)
#[local] Instance amplitude_ops : SampleOps Z :=
  {| audioop_add := Z.add;
     fade_out := fun k n x => x * (Z.of_nat n - Z.of_nat k) / Z.of_nat n;
     fade_in := fun k n x => x * Z.of_nat k / Z.of_nat n;
     beep_sample := fun k => if Nat.even k then 1000 else -1000 |}.

(** What one word adds to [detected] in [find_fillers]. *)
Definition filler_of_word (filler_list : gset string) (w : Word)
  : list Detection :=
  let clean_word := join_if isalnum (word w) in
  if bool_decide (clean_word ∈ EXCLUSIONS) then []
  else if bool_decide (clean_word ∈ filler_list)
       then [(start_ms w, end_ms w, clean_word)]
       else [].

(** Cut [c] covers the interval [x]. *)
Definition covers (c x : Z * Z) : Prop := c.1 <= x.1 /\ x.2 <= c.2.

(** Whether the millisecond [i] lies outside every cut [[start, end)]. *)
Definition outside (cuts : list (Z * Z)) (i : Z) : bool :=
  forallb (fun c : Z * Z => negb ((c.1 <=? i) && (i <? c.2))) cuts.


(** * Properties *)

(** ** Loops *)

Lemma foldl_ext {A B : Type} (f g : A -> B -> A) (a : A) (l : list B) :
  (forall a x, f a x = g a x) -> foldl f a l = foldl g a l.
Proof.
  intros Hfg. revert a. induction l as [|x l IH]; intros a; cbn.
  - reflexivity.
  - rewrite Hfg. apply IH.
Qed.

(** ** Detection: fillers *)

Example scenario_B :
  find_fillers
    [ {| words := [ {| word := "um"; start_ms := 500; end_ms := 800 |};
                    {| word := "a"; start_ms := 900; end_ms := 950 |};
                    {| word := "test"; start_ms := 1000; end_ms := 1500 |} ] |} ]
    FILLER_WORDS
  = [(500, 800, "um"%string)].
Proof. vm_compute. reflexivity. Qed.

Lemma excluded_word_is_skipped (w : Word) :
  word w = "a"%string \/ word w = "and"%string \/ word w = "the"%string ->
  bool_decide (join_if isalnum (word w) ∈ EXCLUSIONS) = true.
Proof.
  intros [-> | [-> | ->]]; apply bool_decide_eq_true; vm_compute;
    set_solver.
Qed.

Lemma find_fillers_words_skipped (filler_list : gset string) ws detected :
  Forall (fun w => word w = "a"%string \/ word w = "and"%string
                   \/ word w = "the"%string) ws ->
  foldl (fun detected w =>
      let clean_word := join_if isalnum (word w) in
      if bool_decide (clean_word ∈ EXCLUSIONS) then detected
      else if bool_decide (clean_word ∈ filler_list)
           then detected ++ [(start_ms w, end_ms w, clean_word)]
           else detected) detected ws = detected.
Proof.
  intros Hws. revert detected.
  induction Hws as [|w ws Hw _ IH]; intros detected; [reflexivity|].
  cbn [foldl]. cbv zeta. rewrite (excluded_word_is_skipped w Hw). apply IH.
Qed.

(** C6 (exclusion safety): a transcript in which every word reads "a",
    "and" or "the" yields no filler, whatever the filler set holds. *)
Theorem find_fillers_exclusion_safety (segments : list Segment)
    (filler_list : gset string) :
  Forall (fun seg =>
            Forall (fun w => word w = "a"%string \/ word w = "and"%string
                             \/ word w = "the"%string) (words seg))
         segments ->
  find_fillers segments filler_list = [].
Proof.
  intros Hsegs. unfold find_fillers.
  enough (Hgen : forall detected : list Detection,
             foldl (fun detected seg =>
               foldl (fun detected w =>
                 let clean_word := join_if isalnum (word w) in
                 if bool_decide (clean_word ∈ EXCLUSIONS) then detected
                 else if bool_decide (clean_word ∈ filler_list)
                      then detected ++ [(start_ms w, end_ms w, clean_word)]
                      else detected)
                 detected (words seg)) detected segments = detected)
    by apply Hgen.
  induction Hsegs as [|seg segs Hseg _ IH]; intros detected.
  - reflexivity.
  - cbn [foldl]. rewrite find_fillers_words_skipped by exact Hseg. apply IH.
Qed.

Lemma find_fillers_exclusion_safety_witness :
  find_fillers
    [ {| words := [ {| word := "the"; start_ms := 0; end_ms := 300 |};
                    {| word := "a"; start_ms := 310; end_ms := 600 |} ] |};
      {| words := [ {| word := "and"; start_ms := 700; end_ms := 900 |} ] |} ]
    (list_to_set ["a"; "the"; "um"]%string)
  = [].
Proof.
  apply find_fillers_exclusion_safety.
  repeat first [apply Forall_nil_2 | apply Forall_cons_2]; cbn; auto.
Defined.

(** ** Detection: stutters *)

Example scenario_C :
  find_stutters
    [ {| words := [ {| word := "the"; start_ms := 0; end_ms := 300 |};
                    {| word := "the"; start_ms := 310; end_ms := 600 |} ] |} ]
  = [].
Proof. vm_compute. reflexivity. Qed.

Section IndexLoop.
Variable f : Word -> Word -> list Detection.

(** The loop over [range(len(ws) - 1)] visits the pairs of neighbours in
    order. *)
Lemma index_loop_neighbours ws acc :
  foldl (at_index f ws) acc (seq 0 (length ws - 1)) = acc ++ neighbours f ws.
Proof.
  revert acc. induction ws as [|a [|b t] IH]; intros acc.
  - cbn. now rewrite app_nil_r.
  - cbn. now rewrite app_nil_r.
  - replace (length (a :: b :: t) - 1)%nat with (S (length (b :: t) - 1))
      by (cbn; lia).
    rewrite <- cons_seq, <- seq_shift.
    cbn [foldl]. unfold at_index at 2. cbn [lookup list_lookup].
    rewrite foldl_fmap.
    erewrite foldl_ext; [rewrite IH|]; cycle 1.
    { intros acc' i. unfold at_index. cbn. reflexivity. }
    cbn [neighbours]. now rewrite app_assoc.
Qed.
End IndexLoop.

Lemma find_stutters_neighbours (segments : list Segment) :
  find_stutters segments
  = neighbours stutter_of_pair (all_words_of segments).
Proof.
  unfold find_stutters. cbv zeta.
  rewrite <- (app_nil_l (neighbours _ _)).
  rewrite <- (index_loop_neighbours stutter_of_pair).
  apply foldl_ext. intros stutters i. unfold at_index, stutter_of_pair.
  destruct (all_words_of segments !! i) as [a|]; [|reflexivity].
  destruct (all_words_of segments !! S i) as [b|]; [|reflexivity].
  cbv zeta.
  repeat match goal with
         | |- context [if ?c then _ else _] => destruct c
         end; now rewrite ?app_nil_r.
Qed.

Lemma neighbours_ext (P : Word -> Prop) f g ws :
  Forall P ws ->
  (forall a b, P a -> P b -> f a b = g a b) ->
  neighbours f ws = neighbours g ws.
Proof.
  intros Hws Hfg.
  induction Hws as [|a ws Ha Hws IH]; [reflexivity|].
  destruct Hws as [|b t Hb Ht]; [reflexivity|].
  cbn [neighbours]. rewrite (Hfg a b Ha Hb). f_equal. apply IH.
Qed.

Lemma rule_stutters_neighbours ws :
  StutterRule.stutters ws
  = neighbours (fun a b =>
      if StutterRule.is_stutter a b
      then [(start_ms a, end_ms a,
                   "STUTTER: " +:+ StutterRule.normalized a)]
      else []) ws.
Proof.
  induction ws as [|a [|b t] IH]; [reflexivity..|].
  change (StutterRule.stutters (a :: b :: t))
    with ((if StutterRule.is_stutter a b
           then [(start_ms a, end_ms a,
                   "STUTTER: " +:+ StutterRule.normalized a)]
           else []) ++ StutterRule.stutters (b :: t)).
  now rewrite IH.
Qed.

(** Filtering the characters of a lower-case string leaves a lower-case
    string. *)
Lemma lower_join_if keep s :
  lower s = s -> lower (join_if keep s) = join_if keep s.
Proof.
  induction s as [|c s IH]; cbn; [reflexivity|].
  intros Heq. injection Heq as Hc Hs.
  destruct (keep c); cbn; [rewrite Hc|]; rewrite IH; auto.
Qed.

Lemma normalized_lower_case (w : Word) :
  lower (word w) = word w -> StutterRule.normalized w = clean_stutter w.
Proof. apply lower_join_if. Qed.

Lemma stutter_of_pair_rule (a b : Word) :
  lower (word a) = word a -> lower (word b) = word b ->
  stutter_of_pair a b
  = if StutterRule.is_stutter a b
    then [(start_ms a, end_ms a,
                   "STUTTER: " +:+ StutterRule.normalized a)]
    else [].
Proof.
  intros Ha Hb. unfold stutter_of_pair, StutterRule.is_stutter.
  rewrite !(normalized_lower_case a Ha), !(normalized_lower_case b Hb).
  cbv zeta.
  destruct (bool_decide (clean_stutter a ∈ EXCLUSIONS)); [reflexivity|].
  destruct (truthy (clean_stutter a)); [|reflexivity].
  destruct (String.eqb (clean_stutter a) (clean_stutter b)); [|reflexivity].
  cbn. destruct (start_ms b - end_ms a <? 200); reflexivity.
Qed.

(** C5, amended (stutter detection): on words that are already in lower
    case, as the transcription step delivers them, [find_stutters] flags
    the span of word [a] exactly when the normal form of [a] is not
    excluded, is not empty, equals the normal form of the next word [b],
    and [b] starts less than 200 ms after [a] ends; and in scenario C,
    "the" twice with a gap of 10 ms, nothing is flagged. *)
Theorem find_stutters_flags_repeated_words (segments : list Segment) :
  (Forall (fun w => lower (word w) = word w) (all_words_of segments) ->
   find_stutters segments = StutterRule.stutters (all_words_of segments))
  /\ find_stutters
       [ {| words := [ {| word := "the"; start_ms := 0; end_ms := 300 |};
                       {| word := "the"; start_ms := 310; end_ms := 600 |} ] |} ]
     = [].
Proof.
  split; [|vm_compute; reflexivity].
  intros Hlower.
  rewrite find_stutters_neighbours, rule_stutters_neighbours.
  apply (neighbours_ext _ _ _ _ Hlower).
  intros a b. apply stutter_of_pair_rule.
Qed.

Lemma find_stutters_flags_repeated_words_witness :
  find_stutters
    [ {| words := [ {| word := "so"; start_ms := 0; end_ms := 300 |};
                    {| word := "so"; start_ms := 310; end_ms := 600 |} ] |};
      {| words := [ {| word := "uh-huh"; start_ms := 900; end_ms := 990 |};
                    {| word := "uh-huh!"; start_ms := 1000; end_ms := 1100 |} ] |} ]
  = [(0, 300, "STUTTER: so"%string); (900, 990, "STUTTER: uh-huh"%string)].
Proof.
  etransitivity.
  - apply find_stutters_flags_repeated_words.
    repeat first [apply Forall_nil_2 | apply Forall_cons_2]; reflexivity.
  - vm_compute. reflexivity.
Defined.

(** C5 as stated fails on a word that is not in lower case:
    [find_stutters] compares the words as they are, so "The" twice is
    flagged although its lower-case form is excluded. *)
Lemma find_stutters_upper_case_counterexample :
  let segments :=
    [ {| words := [ {| word := "The"; start_ms := 0; end_ms := 300 |};
                    {| word := "The"; start_ms := 310; end_ms := 600 |} ] |} ] in
  find_stutters segments = [(0, 300, "STUTTER: The"%string)]
  /\ StutterRule.stutters (all_words_of segments) = []
  /\ find_stutters segments <> StutterRule.stutters (all_words_of segments).
Proof. vm_compute. repeat split; discriminate. Qed.

(** ** The merger *)

(** Scenario A of the specification. *)
Example scenario_A :
  merge 10000 0 0 [(1000, 1200); (1150, 1400); (5000, 5100)]
  = [(1000, 1400); (5000, 5100)].
Proof. vm_compute. reflexivity. Qed.

Lemma foldl_invariant {A B : Type} (P : A -> Prop) (Q : B -> Prop)
    (f : A -> B -> A) (a : A) (l : list B) :
  P a -> Forall Q l -> (forall a x, P a -> Q x -> P (f a x)) ->
  P (foldl f a l).
Proof.
  intros Ha Hl Hstep. revert a Ha.
  induction Hl as [|x l Hx _ IH]; intros a Ha; cbn; auto.
Qed.

Section SortedSnoc.
Context {A : Type} (R : relation A).

Lemma Sorted_replace_last pre x y :
  Sorted R (pre ++ [x]) -> (forall a, R a x -> R a y) -> Sorted R (pre ++ [y]).
Proof.
  intros Hs Hxy. induction pre as [|a pre IH]; cbn in *.
  - repeat constructor.
  - apply Sorted_inv in Hs as [Hs Hhd]. constructor; [auto|].
    destruct pre as [|b pre]; cbn in *.
    + apply HdRel_inv in Hhd. constructor. auto.
    + apply HdRel_inv in Hhd. constructor. exact Hhd.
Qed.

Lemma Sorted_snoc_snoc pre x y :
  Sorted R (pre ++ [x]) -> R x y -> Sorted R (pre ++ [x; y]).
Proof.
  intros Hs Hxy. induction pre as [|a pre IH]; cbn in *.
  - repeat constructor. exact Hxy.
  - apply Sorted_inv in Hs as [Hs Hhd]. constructor; [auto|].
    destruct pre as [|b pre]; cbn in *; apply HdRel_inv in Hhd;
      constructor; exact Hhd.
Qed.

Lemma Sorted_lookup l i a b :
  Sorted R l -> l !! i = Some a -> l !! S i = Some b -> R a b.
Proof.
  intros Hs. revert i. induction Hs as [|x l Hs IH Hhd]; intros i Ha Hb.
  - discriminate.
  - destruct i as [|i]; cbn in *.
    + injection Ha as ->. destruct l as [|y l]; [discriminate|].
      cbn in Hb. injection Hb as ->. now apply HdRel_inv in Hhd.
    + eauto.
Qed.

Lemma Sorted_weaken (R' : relation A) (P : A -> Prop) l :
  Sorted R l -> Forall P l ->
  (forall a b, P a -> P b -> R a b -> R' a b) ->
  Sorted R' l.
Proof.
  intros Hs Hl Himp. induction Hs as [|x l Hs IH Hhd]; [constructor|].
  apply Forall_cons in Hl as [Hx Hl]. constructor; [auto|].
  destruct Hhd as [|y l Hxy]; constructor.
  apply Forall_cons in Hl as [Hy _]. auto.
Qed.
End SortedSnoc.

Section Merge.
Variables duration_ms padding_ms start_offset_ms : Z.

Lemma merge_step_nil seg :
  merge_step duration_ms padding_ms start_offset_ms [] seg
  = [widened duration_ms padding_ms start_offset_ms seg].
Proof. reflexivity. Qed.

Lemma merge_step_snoc pre prev seg :
  merge_step duration_ms padding_ms start_offset_ms (pre ++ [prev]) seg
  = let wide := widened duration_ms padding_ms start_offset_ms seg in
    if wide.1 <=? prev.2
    then pre ++ [(prev.1, Z.max prev.2 wide.2)]
    else pre ++ [prev; wide].
Proof.
  unfold merge_step, widened. rewrite last_snoc. cbn [fst snd].
  destruct (Z.max 0 (seg.1 - start_offset_ms) <=? prev.2).
  - rewrite length_app. cbn [length].
    replace (length pre + 1 - 1)%nat with (length pre + 0)%nat by lia.
    rewrite insert_app_r. reflexivity.
  - rewrite <- app_assoc. reflexivity.
Qed.

Lemma merge_step_apart merged_cuts seg :
  Sorted apart merged_cuts ->
  Sorted apart
    (merge_step duration_ms padding_ms start_offset_ms merged_cuts seg).
Proof.
  destruct merged_cuts as [|prev pre _] using rev_ind; intros Hs.
  - rewrite merge_step_nil. repeat constructor.
  - rewrite merge_step_snoc.
    cbv zeta.
    destruct ((widened duration_ms padding_ms start_offset_ms seg).1
              <=? prev.2) eqn:Hle.
    + eapply Sorted_replace_last; [exact Hs|]. now unfold apart.
    + apply Sorted_snoc_snoc; [exact Hs|].
      unfold apart. apply Z.leb_gt in Hle. exact Hle.
Qed.

Lemma merge_apart intervals :
  Sorted apart (merge duration_ms padding_ms start_offset_ms intervals).
Proof.
  unfold merge.
  apply (foldl_invariant (Sorted apart) (fun _ => True)).
  - constructor.
  - apply Forall_true. auto.
  - intros acc seg Hacc _. now apply merge_step_apart.
Qed.

Hypothesis padding_nonneg : 0 <= padding_ms.
Hypothesis lookback_nonneg : 0 <= start_offset_ms.

Lemma widened_within seg :
  within duration_ms seg ->
  within duration_ms (widened duration_ms padding_ms start_offset_ms seg).
Proof. unfold within, widened. cbn [fst snd]. lia. Qed.

Lemma merge_step_within merged_cuts seg :
  Forall (within duration_ms) merged_cuts -> within duration_ms seg ->
  Forall (within duration_ms)
    (merge_step duration_ms padding_ms start_offset_ms merged_cuts seg).
Proof.
  intros Hacc Hseg. apply widened_within in Hseg. revert Hacc.
  destruct merged_cuts as [|prev pre _] using rev_ind; intros Hacc.
  - rewrite merge_step_nil. apply Forall_singleton. exact Hseg.
  - rewrite merge_step_snoc.
    rewrite Forall_app, Forall_singleton in Hacc. destruct Hacc as [Hpre Hprev].
    cbv zeta.
    destruct ((widened duration_ms padding_ms start_offset_ms seg).1
              <=? prev.2).
    + apply Forall_app. split; [exact Hpre|]. apply Forall_singleton.
      unfold within in *. cbn [fst snd]. lia.
    + apply Forall_app. split; [exact Hpre|].
      apply Forall_cons_2; [exact Hprev|]. apply Forall_singleton. exact Hseg.
Qed.

Lemma merge_within intervals :
  Forall (within duration_ms) intervals ->
  Forall (within duration_ms)
    (merge duration_ms padding_ms start_offset_ms intervals).
Proof.
  intros Hin. unfold merge.
  apply (foldl_invariant (Forall (within duration_ms)) (within duration_ms)).
  - constructor.
  - unfold Py.sorted. now rewrite merge_sort_Permutation.
  - intros acc seg. apply merge_step_within.
Qed.

End Merge.

Lemma apart_within_increasing (duration_ms : Z) (cuts : list (Z * Z)) :
  Sorted apart cuts -> Forall (within duration_ms) cuts ->
  Sorted (fun a b => a.1 < b.1) cuts.
Proof.
  intros Hs Hw. apply (Sorted_weaken apart _ (within duration_ms)); auto.
  unfold apart, within. intros a b Ha Hb Hab. lia.
Qed.

(** C3 (merge disjointness): whatever the input intervals, two neighbours
    [(i, i+1)] of the merged output satisfy [end_ms[i] < start_ms[i+1]]. *)
Theorem merge_cuts_disjoint (duration_ms : Z)
    (segments_to_remove : list Detection) (padding_ms start_offset_ms : Z)
    (i : nat) (a b : Z * Z) :
  merge_cuts duration_ms segments_to_remove padding_ms start_offset_ms !! i
    = Some a ->
  merge_cuts duration_ms segments_to_remove padding_ms start_offset_ms !! S i
    = Some b ->
  a.2 < b.1.
Proof.
  apply (Sorted_lookup apart). apply merge_apart.
Qed.

Lemma merge_cuts_disjoint_witness : (900, 1450).2 < (4900, 5150).1.
Proof.
  apply (merge_cuts_disjoint 10000
           [(5000, 5100, "um"); (1150, 1400, "uh"); (1000, 1200, "er")]%string
           50 100 0 (900, 1450) (4900, 5150));
    vm_compute; reflexivity.
Defined.

(** C9 (bounds of the merged cuts): with a lookback and a padding that are
    not negative and raw intervals inside the audio,
    [0 <= s <= e <= duration_ms], every merged cut [(s', e')] satisfies
    [0 <= s' <= e' <= duration_ms], and the start times of the merged cuts
    increase strictly. *)
Theorem merge_cuts_within_bounds (duration_ms : Z)
    (segments_to_remove : list Detection) (padding_ms start_offset_ms : Z) :
  0 <= padding_ms -> 0 <= start_offset_ms ->
  Forall (fun d => 0 <= d.1.1 /\ d.1.1 <= d.1.2 /\ d.1.2 <= duration_ms)
         segments_to_remove ->
  let merged_cuts :=
    merge_cuts duration_ms segments_to_remove padding_ms start_offset_ms in
  Forall (fun c => 0 <= c.1 /\ c.1 <= c.2 /\ c.2 <= duration_ms) merged_cuts
  /\ (forall i a b,
        merged_cuts !! i = Some a -> merged_cuts !! S i = Some b ->
        a.1 < b.1).
Proof.
  intros Hpad Hoff Hraw merged_cuts.
  assert (Hwithin : Forall (within duration_ms) merged_cuts).
  { apply merge_within; [assumption..|].
    apply Forall_fmap. exact Hraw. }
  split; [exact Hwithin|].
  intros i a b. apply (Sorted_lookup (fun a b => a.1 < b.1)).
  apply (apart_within_increasing duration_ms);
    [apply merge_apart | exact Hwithin].
Qed.

Lemma merge_cuts_within_bounds_witness :
  Forall (fun c => 0 <= c.1 /\ c.1 <= c.2 /\ c.2 <= 6000)
    (merge_cuts 6000
       [(5000, 5980, "um"); (1150, 1400, "uh"); (40, 1200, "er")]%string
       50 100).
Proof.
  apply (merge_cuts_within_bounds 6000
           [(5000, 5980, "um"); (1150, 1400, "uh"); (40, 1200, "er")]%string
           50 100); [lia | lia |].
  repeat first [apply Forall_nil_2 | apply Forall_cons_2]; cbn; lia.
Defined.

(** *** Merging twice *)

#[local] Instance tuple_le_trans : Transitive tuple_le.
Proof. intros x y z. unfold tuple_le. lia. Qed.

#[local] Instance tuple_le_antisymm : AntiSymm (=) tuple_le.
Proof.
  intros [x1 x2] [y1 y2]. unfold tuple_le. cbn [fst snd]. intros H1 H2.
  f_equal; lia.
Qed.

#[local] Instance tuple_le_total : Total tuple_le.
Proof. intros x y. unfold tuple_le. lia. Qed.

(** [sorted(l)] is the one ordered arrangement of [l], whichever algorithm
    computes it. *)
Lemma sorted_unique (l l' : list (Z * Z)) :
  Sorted tuple_le l' -> l' ≡ₚ l -> Py.sorted l = l'.
Proof.
  intros Hs Hperm. apply (Sorted_unique tuple_le); [|exact Hs|].
  - apply (Sorted_merge_sort tuple_le).
  - unfold Py.sorted. now rewrite merge_sort_Permutation, Hperm.
Qed.

(** Sorting leaves a sorted list as it is. *)
Lemma sorted_fixpoint (l : list (Z * Z)) : Sorted tuple_le l -> Py.sorted l = l.
Proof. intros Hs. now apply sorted_unique. Qed.

(** Without widening, the loop copies cuts that lie in the audio and are
    apart from each other. *)
Lemma merge_loop_fixpoint (duration_ms : Z) (cuts merged_cuts : list (Z * Z)) :
  Forall (within duration_ms) cuts ->
  Sorted apart (merged_cuts ++ cuts) ->
  foldl (merge_step duration_ms 0 0) merged_cuts cuts = merged_cuts ++ cuts.
Proof.
  intros Hw. revert merged_cuts.
  induction Hw as [|c cuts Hc _ IH]; intros merged_cuts Hs; cbn [foldl].
  - now rewrite app_nil_r.
  - assert (Hwide : widened duration_ms 0 0 c = c).
    { destruct c as [s e]. unfold within, widened in *. cbn [fst snd] in *.
      f_equal; lia. }
    assert (Hstep : merge_step duration_ms 0 0 merged_cuts c
                    = merged_cuts ++ [c]).
    { revert Hs.
      destruct merged_cuts as [|prev pre _] using rev_ind; intros Hs.
      - now rewrite merge_step_nil, Hwide.
      - rewrite merge_step_snoc, Hwide.
        assert (Hgap : apart prev c).
        { rewrite <- app_assoc in Hs. clear -Hs.
          induction pre as [|a pre IH]; cbn in Hs.
          - apply Sorted_inv in Hs as [_ Hhd]. now apply HdRel_inv in Hhd.
          - apply Sorted_inv in Hs as [Hs _]. auto. }
        unfold apart in Hgap. apply Z.leb_gt in Hgap. cbv zeta.
        rewrite Hgap. now rewrite <- app_assoc. }
    rewrite Hstep, IH; rewrite <- app_assoc; [reflexivity|exact Hs].
Qed.

(** C4, amended (merge idempotence): without lookback and padding, and for
    raw intervals that lie in the audio, [0 <= s <= e <= duration_ms],
    merging the merged cuts again gives the same cuts. *)
Theorem merge_idempotent_without_widening (duration_ms : Z)
    (intervals : list (Z * Z)) :
  Forall (fun c => 0 <= c.1 /\ c.1 <= c.2 /\ c.2 <= duration_ms) intervals ->
  merge duration_ms 0 0 (merge duration_ms 0 0 intervals)
  = merge duration_ms 0 0 intervals.
Proof.
  intros Hraw.
  assert (Hw : Forall (within duration_ms) (merge duration_ms 0 0 intervals))
    by (apply merge_within; [lia | lia | exact Hraw]).
  pose proof (merge_apart duration_ms 0 0 intervals) as Ha.
  unfold merge at 1. cbv zeta.
  rewrite sorted_fixpoint.
  - now apply (merge_loop_fixpoint duration_ms _ []).
  - apply (Sorted_weaken (fun a b => a.1 < b.1) _ (fun _ => True)).
    + now apply (apart_within_increasing duration_ms).
    + now apply Forall_true.
    + unfold tuple_le. intros a b _ _ Hab. now left.
Qed.

Lemma merge_idempotent_without_widening_witness :
  merge 10000 0 0
    (merge 10000 0 0 [(5000, 5100); (1150, 1400); (1000, 1200)])
  = merge 10000 0 0 [(5000, 5100); (1150, 1400); (1000, 1200)].
Proof.
  apply merge_idempotent_without_widening.
  repeat first [apply Forall_nil_2 | apply Forall_cons_2]; cbn; lia.
Defined.

(** C4 as stated fails: with the default lookback of 100 ms and padding of
    50 ms every pass widens the cuts again; and without widening, intervals
    that start before the audio are merged into cuts that a second pass
    reorders. *)
Lemma merge_twice_counterexample :
  (merge 10000 50 100 [(1000, 1200)] = [(900, 1250)]
   /\ merge 10000 50 100 (merge 10000 50 100 [(1000, 1200)]) = [(800, 1300)]
   /\ merge 10000 50 100 (merge 10000 50 100 [(1000, 1200)])
      <> merge 10000 50 100 [(1000, 1200)])
  /\ (merge 10 0 0 [(-3, -1); (-2, -2)] = [(0, -1); (0, -2)]
      /\ merge 10 0 0 (merge 10 0 0 [(-3, -1); (-2, -2)]) = [(0, -2); (0, -1)]
      /\ merge 10 0 0 (merge 10 0 0 [(-3, -1); (-2, -2)])
         <> merge 10 0 0 [(-3, -1); (-2, -2)]).
Proof. vm_compute. repeat split; discriminate. Qed.

(** ** The audio buffer *)

Section Slices.
Context {Sample : Type}.
Implicit Types seg : AudioSegment Sample.

Lemma len_nonneg seg : 0 <= len seg.
Proof. unfold len. lia. Qed.


Lemma split_point_le seg p : (split_point seg p <= length seg)%nat.
Proof.
  unfold split_point, parse_position, len.
  destruct (Z.min p (Z.of_nat (length seg)) <? 0) eqn:Hneg; lia.
Qed.


Lemma getslice_from seg p :
  getslice seg (Some p) None = drop (split_point seg p) seg.
Proof.
  unfold getslice. cbn [default]. fold (split_point seg p).
  pose proof (len_nonneg seg) as Hn. pose proof (split_point_le seg p) as Hle.
  rewrite Z.min_id.
  assert (Hstop : parse_position seg (len seg) = len seg).
  { unfold parse_position. destruct (len seg <? 0) eqn:Hneg; lia. }
  rewrite Hstop. apply take_ge. rewrite length_drop.
  unfold split_point, len, id in *. lia.
Qed.


Lemma getslice_range seg a b :
  0 <= a -> 0 <= b ->
  getslice seg (Some a) (Some b)
  = take (Z.to_nat (Z.min b (len seg)) - Z.to_nat (Z.min a (len seg)))
         (drop (Z.to_nat (Z.min a (len seg))) seg).
Proof.
  intros Ha Hb. unfold getslice, parse_position. cbn [default]. unfold id.
  pose proof (len_nonneg seg) as Hn.
  destruct (Z.min a (len seg) <? 0) eqn:Hna; [lia|].
  destruct (Z.min b (len seg) <? 0) eqn:Hnb; [lia|].
  f_equal. lia.
Qed.

Lemma len_getslice_range seg a b :
  0 <= a -> a <= b -> b <= len seg ->
  len (getslice seg (Some a) (Some b)) = b - a.
Proof.
  intros Ha Hab Hb. rewrite getslice_range by lia.
  unfold len in *. rewrite length_take, length_drop. lia.
Qed.


(** A prefix followed by the next span is the longer prefix. *)
Lemma take_getslice seg a b :
  0 <= a -> a <= b ->
  take (Z.to_nat (Z.min a (len seg))) seg ++ getslice seg (Some a) (Some b)
  = take (Z.to_nat (Z.min b (len seg))) seg.
Proof.
  intros Ha Hab. rewrite getslice_range by lia. rewrite take_take_drop.
  f_equal. lia.
Qed.

End Slices.

(** ** The reassembler *)



Section Reassembler.
Context {Sample : Type} `{!SampleOps Sample}.
Implicit Types original_audio processed_audio : AudioSegment Sample.





(** The cut mode can only fail in a crossfade. *)
Lemma join_raise processed_audio (segment : AudioSegment Sample)
    crossfade_ms e :
  join processed_audio segment crossfade_ms = Raise e ->
  e = ValueError /\ 0 < crossfade_ms.
Proof.
  unfold join, append.
  destruct (0 <? len processed_audio); cbn [andb]; [|discriminate].
  destruct (0 <? crossfade_ms) eqn:Hxf; [|discriminate].
  apply Z.ltb_lt in Hxf.
  destruct (crossfade_ms =? 0); [discriminate|].
  destruct (len processed_audio <? crossfade_ms);
    [intros [= <-]; now split|].
  destruct (len segment <? crossfade_ms); [intros [= <-]; now split|].
  discriminate.
Qed.

Lemma cut_loop_raise original_audio crossfade_ms cuts st e :
  for_each (cut_step original_audio crossfade_ms) st cuts = Raise e ->
  e = ValueError /\ 0 < crossfade_ms.
Proof.
  revert st. induction cuts as [|c cuts IH]; intros [processed_audio pos];
    cbn [for_each]; [discriminate|].
  destruct (cut_step original_audio crossfade_ms (processed_audio, pos) c)
    as [st'|e'] eqn:Hstep; cbn [mbind result_bind]; [apply IH|].
  intros [= <-]. unfold cut_step in Hstep.
  destruct (pos <? c.1); [|discriminate].
  match type of Hstep with
  | context [join ?a ?b ?c] => destruct (join a b c) as [joined|e''] eqn:Hjoin
  end; [discriminate|].
  injection Hstep as <-. now apply join_raise in Hjoin.
Qed.

Lemma cut_mode_raise original_audio cuts crossfade_ms e :
  cut_mode original_audio cuts crossfade_ms = Raise e ->
  e = ValueError /\ 0 < crossfade_ms.
Proof.
  unfold cut_mode. cbv zeta.
  destruct (for_each _ _ cuts) as [[processed_audio last_pos]|e'] eqn:Hloop;
    cbn [mbind result_bind].
  - destruct (last_pos <? len original_audio); [apply join_raise|discriminate].
  - intros [= <-]. now apply cut_loop_raise in Hloop.
Qed.

(** C10 (export format): with nothing to remove the original audio is
    exported as MP3 whatever the name of the output file; otherwise the
    format follows the extension of the output file, .flac or .wav, and
    is MP3 for any other name.  (With cuts, the run ends in the export
    unless a crossfade longer than a kept span raises.) *)
Theorem export_format original_audio (output_file : string)
    (segments_to_remove : list Detection) (debug_beep : bool)
    (padding_ms start_offset_ms crossfade_ms : Z) :
  let run :=
    process_audio_pydub original_audio output_file segments_to_remove
      debug_beep padding_ms start_offset_ms crossfade_ms in
  (segments_to_remove = [] ->
   run = Return {| exported := original_audio; to_file := output_file;
                   format := mp3 |})
  /\ (segments_to_remove <> [] ->
      match run with
      | Return file =>
          to_file file = output_file
          /\ format file
             = if endswith (lower output_file) ".flac" then flac
               else if endswith (lower output_file) ".wav" then wav
               else mp3
      | Raise e => e = ValueError /\ debug_beep = false /\ 0 < crossfade_ms
      end).
Proof.
  cbv zeta. split.
  - intros ->. reflexivity.
  - intros Hcuts. unfold process_audio_pydub.
    destruct segments_to_remove as [|d segments]; [congruence|].
    destruct debug_beep; cbn [mbind result_bind].
    + split; reflexivity.
    + destruct (cut_mode original_audio _ crossfade_ms) as [processed|e]
        eqn:Hcut; cbn [mbind result_bind].
      * split; reflexivity.
      * apply cut_mode_raise in Hcut as [-> Hxf]. auto.
Qed.

End Reassembler.


Lemma export_format_witness :
  process_audio_pydub [10; 11; 12; 13; 14; 15] "talk.FLAC" [] false 50 100 10
  = Return {| exported := [10; 11; 12; 13; 14; 15]; to_file := "talk.FLAC";
              format := mp3 |}
  /\ match process_audio_pydub [10; 11; 12; 13; 14; 15] "talk.FLAC"
             [(2, 4, "um"%string)] false 1 1 0 with
     | Return file => to_file file = "talk.FLAC"%string /\ format file = flac
     | Raise e => e = ValueError /\ false = false /\ 0 < 0
     end.
Proof.
  split.
  - apply (export_format [10; 11; 12; 13; 14; 15] "talk.FLAC" [] false
             50 100 10).
    reflexivity.
  - apply (export_format [10; 11; 12; 13; 14; 15] "talk.FLAC"
             [(2, 4, "um"%string)] false 1 1 0).
    discriminate.
Defined.

(** ** Removal of hand-picked words *)

Lemma words_in_order_earlier pos pos' ws :
  pos' <= pos -> words_in_order pos ws -> words_in_order pos' ws.
Proof.
  destruct ws as [|w ws]; cbn; [auto|].
  intros Hle (H1 & H2 & H3). repeat split; [lia | lia | exact H3].
Qed.

Lemma mock_transcript_in_order : words_in_order 0 MOCK_TRANSCRIPT_DATA.
Proof. cbn. repeat split; lia. Qed.

(** [enumerate] pairs every item with its index and keeps the items. *)
Lemma enumerate_items {A : Type} (l : list A) : (imap pair l).*2 = l.
Proof.
  rewrite fmap_imap.
  enough (Hgen : forall f : nat -> A -> A,
             (forall i x, f i x = x) -> imap f l = l) by now apply Hgen.
  induction l as [|x l IH]; intros f Hf; cbn; [reflexivity|].
  rewrite Hf. f_equal. apply IH. intros i y. apply Hf.
Qed.

Section Editing.
Context {Sample : Type}.
Implicit Types audio new_audio : AudioSegment Sample.

(** A selected word does not move the cursor [last_kept_end_ms], so the
    next kept word brings the whole stretch since the last kept word with
    it: at every point of the loop [new_audio] is the audio up to the
    cursor. *)
Lemma edit_loop_prefix audio selected_indices (items : list (nat * Word))
    new_audio last_kept_end_ms :
  0 <= last_kept_end_ms ->
  words_in_order last_kept_end_ms (items.*2) ->
  new_audio = take (Z.to_nat (Z.min last_kept_end_ms (len audio))) audio ->
  exists last,
    foldl (edit_step audio selected_indices) (new_audio, last_kept_end_ms) items
    = (take (Z.to_nat (Z.min last (len audio))) audio, last)
    /\ 0 <= last.
Proof.
  revert new_audio last_kept_end_ms.
  induction items as [|[i item] items IH];
    intros new_audio last_kept_end_ms Hpos Hord ->.
  - exists last_kept_end_ms. split; [reflexivity|exact Hpos].
  - cbn in Hord. destruct Hord as (Hstart & Hdur & Hord).
    cbn [foldl edit_step].
    destruct (bool_decide (Z.of_nat i ∈ selected_indices)).
    + apply IH; [exact Hpos | | reflexivity].
      apply (words_in_order_earlier (end_ms item)); [lia | exact Hord].
    + apply IH; [lia | exact Hord |].
      unfold add. rewrite !take_getslice by lia. reflexivity.
Qed.

(** For a transcript in chronological order the new audio is the audio
    that was loaded, whatever was selected. *)
Lemma edit_audio_unchanged audio (transcript : list Word) selected_indices :
  words_in_order 0 transcript ->
  edit_audio audio transcript selected_indices = audio.
Proof.
  intros Hord. unfold edit_audio.
  destruct (edit_loop_prefix audio selected_indices (imap pair transcript)
              empty 0) as (last & Hloop & Hlast).
  - lia.
  - now rewrite enumerate_items.
  - rewrite Z.min_l by apply len_nonneg. reflexivity.
  - pose proof (len_nonneg audio) as Hn.
    replace (foldl _ _ _)
      with (take (Z.to_nat (Z.min last (len audio))) audio, last).
    destruct (last <? len audio) eqn:Hlt.
    + apply Z.ltb_lt in Hlt. unfold add. rewrite getslice_from.
      unfold split_point, parse_position.
      destruct (Z.min last (len audio) <? 0) eqn:Hneg; [lia|].
      apply take_drop.
    + apply Z.ltb_ge in Hlt. apply take_ge. unfold len in *. lia.
Qed.

(** Whenever the selection parses and the file loads,
    [process_edited_audio] writes the loaded audio back in full. *)
Lemma process_edited_audio_writes_input (path : string) (loaded : json)
    (selected_indices : gset Z)
    (from_file : string -> AudioSegment Sample + string) audio :
  selected_indices_of loaded = Return selected_indices ->
  from_file path = inl audio ->
  written (process_edited_audio (Some path) (Return loaded) from_file)
  = [ {| exported := audio;
         to_file := generate_blank_output_path path "_edited";
         format := mp3 |} ].
Proof.
  intros Hsel Hfile. unfold process_edited_audio.
  cbn [mbind result_bind]. rewrite Hsel, Hfile. cbn [written].
  now rewrite (edit_audio_unchanged _ _ _ mock_transcript_in_order).
Qed.

(** A selection that cannot be decoded is reported, and nothing is
    written. *)
Lemma process_edited_audio_undecodable (path : string)
    (from_file : string -> AudioSegment Sample + string) :
  process_edited_audio (Some path) (Raise JSONDecodeError) from_file
  = {| written := [];
       outcome :=
         Return (None, "Error: Could not parse selected words."%string) |}.
Proof. reflexivity. Qed.

(** C8 (malformed selection): a selection that is valid JSON but not a
    list of integers is not caught.  For the text [5], which decodes to
    the integer 5, the loop over the decoded value raises [TypeError];
    for the text [["a"]], the conversion [int("a")] raises [ValueError].
    Both exceptions leave [process_edited_audio]; no error message is
    returned. *)
Theorem process_edited_audio_raises_on_malformed_selection (path : string)
    (from_file : string -> AudioSegment Sample + string) :
  process_edited_audio (Some path) (Return (JInt 5)) from_file
  = {| written := []; outcome := Raise TypeError |}
  /\ process_edited_audio (Some path) (Return (JList [JStr "a"])) from_file
     = {| written := []; outcome := Raise ValueError |}.
Proof. split; reflexivity. Qed.

End Editing.

(** C1 (explicit selection): the span of a selected word is not removed.
    For an audio of 7000 ms whose frame [t] holds the number [t], and the
    selection [[1]] (the word "um," from 550 ms to 800 ms), the one file
    written holds the whole audio: all 7000 frames, and from 550 ms to
    800 ms the frames 550 to 799 of the selected word. *)
Theorem process_edited_audio_keeps_selected_word :
  let audio : AudioSegment Z := seqZ 0 7000 in
  let run :=
    process_edited_audio (Some "talk.mp3"%string) (Return (JList [JInt 1]))
      (fun _ => inl audio) in
  MOCK_TRANSCRIPT_DATA !! 1%nat
    = Some {| word := "um,"; start_ms := 550; end_ms := 800 |}
  /\ written run
     = [ {| exported := audio; to_file := "talk_edited.mp3"; format := mp3 |} ]
  /\ (fun file => len (exported file)) <$> written run = [7000]
  /\ (fun file => getslice (exported file) (Some 550) (Some 800))
       <$> written run
     = [seqZ 550 250].
Proof.
  intros audio run.
  assert (Hwritten :
    written run
    = [ {| exported := audio; to_file := "talk_edited.mp3"; format := mp3 |} ]).
  { subst run.
    rewrite (process_edited_audio_writes_input "talk.mp3" (JList [JInt 1])
               ({[1]} ∪ ∅) _ audio) by reflexivity.
    reflexivity. }
  split; [reflexivity|]. split; [exact Hwritten|].
  rewrite Hwritten. split; vm_compute; reflexivity.
Qed.

(** * Further properties *)

(** ** Detection *)

Lemma all_words_of_concat (segments : list Segment) :
  all_words_of segments = mjoin (words <$> segments).
Proof.
  unfold all_words_of.
  enough (Hgen : forall acc : list Word,
             foldl (fun all_words seg => all_words ++ words seg) acc segments
             = acc ++ mjoin (words <$> segments)) by apply Hgen.
  induction segments as [|seg segments IH]; intros acc; cbn.
  - now rewrite app_nil_r.
  - now rewrite IH, app_assoc.
Qed.

Lemma all_words_of_app (segments1 segments2 : list Segment) :
  all_words_of (segments1 ++ segments2)
  = all_words_of segments1 ++ all_words_of segments2.
Proof. now rewrite !all_words_of_concat, fmap_app, join_app. Qed.

(** The two loops of [find_fillers] visit the words of all segments in
    order. *)
Lemma find_fillers_words (segments : list Segment) (filler_list : gset string) :
  find_fillers segments filler_list
  = all_words_of segments ≫= filler_of_word filler_list.
Proof.
  rewrite all_words_of_concat. unfold find_fillers.
  enough (Hgen : forall detected : list Detection,
             foldl (fun detected seg =>
               foldl (fun detected w =>
                 let clean_word := join_if isalnum (word w) in
                 if bool_decide (clean_word ∈ EXCLUSIONS) then detected
                 else if bool_decide (clean_word ∈ filler_list)
                      then detected ++ [(start_ms w, end_ms w, clean_word)]
                      else detected)
                 detected (words seg)) detected segments
             = detected ++ (mjoin (words <$> segments)
                            ≫= filler_of_word filler_list))
    by apply Hgen.
  induction segments as [|seg segments IH]; intros detected.
  - cbn. now rewrite app_nil_r.
  - cbn [foldl fmap list_fmap mjoin list_join]. rewrite IH, bind_app, app_assoc.
    f_equal. generalize (words seg) as ws. clear.
    intros ws. revert detected.
    induction ws as [|w ws IH]; intros detected.
    + cbn. now rewrite app_nil_r.
    + cbn [foldl]. rewrite IH, bind_cons, app_assoc. f_equal.
      unfold filler_of_word. cbv zeta.
      destruct (bool_decide (_ ∈ EXCLUSIONS)); [now rewrite app_nil_r|].
      destruct (bool_decide (_ ∈ filler_list)); [reflexivity|].
      now rewrite app_nil_r.
Qed.

(** X1: [find_fillers] returns a detection exactly for the words whose
    letters and digits spell a member of the filler list that is not one
    of the excluded words; the detection carries the times of the word and
    that spelling. *)
Theorem find_fillers_detects_exactly (segments : list Segment)
    (filler_list : gset string) (d : Detection) :
  d ∈ find_fillers segments filler_list
  <-> exists w,
        w ∈ all_words_of segments
        /\ d = (start_ms w, end_ms w, join_if isalnum (word w))
        /\ join_if isalnum (word w) ∈ filler_list
        /\ join_if isalnum (word w) ∉ EXCLUSIONS.
Proof.
  rewrite find_fillers_words, list_elem_of_bind.
  split.
  - intros (w & Hd & Hw). exists w. split; [exact Hw|].
    unfold filler_of_word in Hd. cbv zeta in Hd.
    destruct (bool_decide (_ ∈ EXCLUSIONS)) eqn:Hex;
      [now apply elem_of_nil in Hd|].
    destruct (bool_decide (_ ∈ filler_list)) eqn:Hin;
      [|now apply elem_of_nil in Hd].
    apply list_elem_of_singleton in Hd.
    apply bool_decide_eq_false in Hex. apply bool_decide_eq_true in Hin.
    auto.
  - intros (w & Hw & -> & Hin & Hex). exists w. split; [|exact Hw].
    unfold filler_of_word. cbv zeta.
    rewrite (bool_decide_eq_false_2 _ Hex), (bool_decide_eq_true_2 _ Hin).
    now apply list_elem_of_singleton.
Qed.

(** X2: the fillers of a transcript in two parts are the fillers of the
    first part followed by the fillers of the second part. *)
Theorem find_fillers_app (segments1 segments2 : list Segment)
    (filler_list : gset string) :
  find_fillers (segments1 ++ segments2) filler_list
  = find_fillers segments1 filler_list ++ find_fillers segments2 filler_list.
Proof. now rewrite !find_fillers_words, all_words_of_app, bind_app. Qed.

Lemma length_neighbours f (ws : list Word) :
  (forall a b, length (f a b) <= 1)%nat ->
  (length (neighbours f ws) <= length ws - 1)%nat.
Proof.
  intros Hf. induction ws as [|a [|b t] IH]; [cbn; lia..|].
  change (neighbours f (a :: b :: t)) with (f a b ++ neighbours f (b :: t)).
  rewrite length_app. specialize (Hf a b). cbn [length] in *. lia.
Qed.

(** X3: [find_stutters] flags at most one word for every pair of
    neighbours: at most [n - 1] of [n] words, and none when the transcript
    has fewer than two words. *)
Theorem find_stutters_at_most_pairs (segments : list Segment) :
  (length (find_stutters segments)
   <= length (all_words_of segments) - 1)%nat.
Proof.
  rewrite find_stutters_neighbours. apply length_neighbours.
  intros a b. unfold stutter_of_pair. cbv zeta.
  repeat match goal with
         | |- context [if ?c then _ else _] => destruct c
         end; cbn; lia.
Qed.

(** ** The merger, continued *)

Section MergeCover.
Variables duration_ms padding_ms start_offset_ms : Z.

Lemma widened_start_mono (x y : Z * Z) :
  tuple_le x y ->
  (widened duration_ms padding_ms start_offset_ms x).1
  <= (widened duration_ms padding_ms start_offset_ms y).1.
Proof. unfold tuple_le, widened. cbn [fst snd]. lia. Qed.

(** A step of the loop leaves every cut in place or lets it end later. *)
Lemma merge_step_extends merged_cuts seg c :
  c ∈ merged_cuts ->
  exists c',
    c' ∈ merge_step duration_ms padding_ms start_offset_ms merged_cuts seg
    /\ c'.1 = c.1 /\ c.2 <= c'.2.
Proof.
  destruct merged_cuts as [|prev pre _] using rev_ind; intros Hc.
  - now apply elem_of_nil in Hc.
  - rewrite merge_step_snoc. cbv zeta.
    apply elem_of_app in Hc as [Hc|Hc].
    + exists c. split; [|lia].
      destruct (_ <=? prev.2); apply elem_of_app; now left.
    + apply list_elem_of_singleton in Hc as ->.
      destruct (_ <=? prev.2).
      * eexists. split; [apply elem_of_app; right;
                         apply list_elem_of_singleton; reflexivity|].
        cbn [fst snd]. lia.
      * exists prev. split; [|lia]. apply elem_of_app. right. constructor.
Qed.

(** After the step, a cut covers the widened interval, provided the cuts
    so far do not start after it. *)
Lemma merge_step_covers merged_cuts seg :
  (forall c, c ∈ merged_cuts ->
             c.1 <= (widened duration_ms padding_ms start_offset_ms seg).1) ->
  exists c,
    c ∈ merge_step duration_ms padding_ms start_offset_ms merged_cuts seg
    /\ covers c (widened duration_ms padding_ms start_offset_ms seg).
Proof.
  destruct merged_cuts as [|prev pre _] using rev_ind; intros Hstarts.
  - rewrite merge_step_nil. eexists. split; [constructor|].
    unfold covers. lia.
  - rewrite merge_step_snoc. cbv zeta.
    assert (Hprev : prev.1
              <= (widened duration_ms padding_ms start_offset_ms seg).1).
    { apply Hstarts, elem_of_app. right. constructor. }
    destruct (_ <=? prev.2).
    + eexists. split; [apply elem_of_app; right;
                       apply list_elem_of_singleton; reflexivity|].
      unfold covers. cbn [fst snd]. lia.
    + eexists. split; [apply elem_of_app; right; right; constructor|].
      unfold covers. lia.
Qed.

Lemma merge_step_starts merged_cuts seg bound :
  (forall c, c ∈ merged_cuts -> c.1 <= bound) ->
  (widened duration_ms padding_ms start_offset_ms seg).1 <= bound ->
  forall c,
    c ∈ merge_step duration_ms padding_ms start_offset_ms merged_cuts seg ->
    c.1 <= bound.
Proof.
  destruct merged_cuts as [|prev pre _] using rev_ind; intros Hstarts Hseg c.
  - rewrite merge_step_nil. intros ->%list_elem_of_singleton. exact Hseg.
  - rewrite merge_step_snoc. cbv zeta.
    assert (Hprev : prev.1 <= bound).
    { apply Hstarts, elem_of_app. right. constructor. }
    assert (Hpre : forall c, c ∈ pre -> c.1 <= bound).
    { intros c' Hc'. apply Hstarts, elem_of_app. now left. }
    destruct (_ <=? prev.2); intros [Hc|Hc]%elem_of_app; auto.
    + apply list_elem_of_singleton in Hc as ->. exact Hprev.
    + apply elem_of_cons in Hc as [->|Hc]; [exact Hprev|].
      apply list_elem_of_singleton in Hc as ->. exact Hseg.
Qed.

(** The loop over intervals in sorted order: the cuts it starts with only
    grow, and every interval it passes ends up covered. *)
Lemma merge_loop_covers (intervals merged_cuts : list (Z * Z)) :
  StronglySorted tuple_le intervals ->
  (forall c x, c ∈ merged_cuts -> x ∈ intervals ->
     c.1 <= (widened duration_ms padding_ms start_offset_ms x).1) ->
  let result :=
    foldl (merge_step duration_ms padding_ms start_offset_ms)
          merged_cuts intervals in
  (forall c, c ∈ merged_cuts ->
     exists c', c' ∈ result /\ c'.1 = c.1 /\ c.2 <= c'.2)
  /\ (forall x, x ∈ intervals ->
        exists c,
          c ∈ result
          /\ covers c (widened duration_ms padding_ms start_offset_ms x)).
Proof.
  intros Hsorted. revert merged_cuts.
  induction Hsorted as [|x rest Hsorted IH Hx]; intros merged_cuts Hstarts.
  - cbn. split.
    + intros c Hc. exists c. split; [exact Hc|lia].
    + intros x Hx. now apply elem_of_nil in Hx.
  - cbn [foldl].
    set (merged' :=
           merge_step duration_ms padding_ms start_offset_ms merged_cuts x).
    assert (Hhere : forall c, c ∈ merged_cuts ->
              c.1 <= (widened duration_ms padding_ms start_offset_ms x).1).
    { intros c Hc. apply Hstarts; [exact Hc|constructor]. }
    destruct (IH merged') as [Hgrow Hcover].
    { intros c y Hc Hy. subst merged'.
      apply (merge_step_starts merged_cuts x); [| |exact Hc].
      - intros c' Hc'. apply Hstarts; [exact Hc'|now constructor].
      - apply widened_start_mono. rewrite Forall_forall in Hx.
        now apply Hx. }
    split.
    + intros c Hc.
      destruct (merge_step_extends merged_cuts x c Hc) as (c1 & Hc1 & H1 & H2).
      destruct (Hgrow c1 Hc1) as (c2 & Hc2 & H3 & H4).
      exists c2. split; [exact Hc2|lia].
    + intros y [->|Hy]%elem_of_cons; [|now apply Hcover].
      destruct (merge_step_covers merged_cuts x Hhere) as (c1 & Hc1 & Hcov).
      destruct (Hgrow c1 Hc1) as (c2 & Hc2 & H3 & H4).
      exists c2. split; [exact Hc2|]. unfold covers in *. lia.
Qed.

Lemma merge_covers (intervals : list (Z * Z)) (x : Z * Z) :
  x ∈ intervals ->
  exists c,
    c ∈ merge duration_ms padding_ms start_offset_ms intervals
    /\ covers c (widened duration_ms padding_ms start_offset_ms x).
Proof.
  intros Hx. unfold merge. cbv zeta.
  apply (merge_loop_covers (Py.sorted intervals) []).
  - apply (StronglySorted_merge_sort tuple_le).
  - intros c y Hc. now apply elem_of_nil in Hc.
  - unfold Py.sorted. now rewrite merge_sort_Permutation.
Qed.

Lemma merge_step_length merged_cuts seg :
  (length merged_cuts
   <= length (merge_step duration_ms padding_ms start_offset_ms
                merged_cuts seg)
   <= S (length merged_cuts))%nat
  /\ merge_step duration_ms padding_ms start_offset_ms merged_cuts seg <> [].
Proof.
  destruct merged_cuts as [|prev pre _] using rev_ind.
  - rewrite merge_step_nil. cbn. split; [lia|discriminate].
  - rewrite merge_step_snoc. cbv zeta.
    destruct (_ <=? prev.2); rewrite !length_app; cbn [length];
      (split; [lia|]); intros Hnil; apply (f_equal length) in Hnil;
      rewrite length_app in Hnil; cbn in Hnil; lia.
Qed.

Lemma merge_loop_length (intervals merged_cuts : list (Z * Z)) :
  (length merged_cuts
   <= length (foldl (merge_step duration_ms padding_ms start_offset_ms)
                merged_cuts intervals)
   <= length merged_cuts + length intervals)%nat.
Proof.
  revert merged_cuts.
  induction intervals as [|x rest IH]; intros merged_cuts; cbn [foldl length].
  - lia.
  - specialize (IH (merge_step duration_ms padding_ms start_offset_ms
                      merged_cuts x)).
    pose proof (merge_step_length merged_cuts x) as [Hlen _]. lia.
Qed.

Lemma merge_count (intervals : list (Z * Z)) :
  (length (merge duration_ms padding_ms start_offset_ms intervals)
   <= length intervals)%nat
  /\ (merge duration_ms padding_ms start_offset_ms intervals = []
      <-> intervals = []).
Proof.
  unfold merge. cbv zeta.
  assert (Hlen : length (Py.sorted intervals) = length intervals).
  { unfold Py.sorted. now rewrite merge_sort_Permutation. }
  split.
  - pose proof (merge_loop_length (Py.sorted intervals) []) as Hloop.
    cbn [length] in Hloop. lia.
  - split.
    + intros Hnil. destruct (Py.sorted intervals) as [|x rest] eqn:Hsorted.
      * destruct intervals; [reflexivity|discriminate].
      * exfalso. cbn [foldl] in Hnil.
        pose proof (merge_loop_length rest
                      (merge_step duration_ms padding_ms start_offset_ms
                         [] x)) as [Hloop _].
        rewrite Hnil, merge_step_nil in Hloop. cbn in Hloop. lia.
    + intros ->. reflexivity.
Qed.

End MergeCover.

(** X4: every interval to remove, widened by the lookback and the padding
    and kept inside the audio as lines 117 and 118 do, lies inside one of
    the merged cuts. *)
Theorem merge_cuts_cover_every_interval (duration_ms : Z)
    (segments_to_remove : list Detection) (padding_ms start_offset_ms : Z)
    (d : Detection) :
  d ∈ segments_to_remove ->
  exists c,
    c ∈ merge_cuts duration_ms segments_to_remove padding_ms start_offset_ms
    /\ c.1 <= Z.max 0 (d.1.1 - start_offset_ms)
    /\ Z.min duration_ms (d.1.2 + padding_ms) <= c.2.
Proof.
  intros Hd. unfold merge_cuts.
  apply (merge_covers duration_ms padding_ms start_offset_ms _
           (d.1.1, d.1.2)).
  apply list_elem_of_fmap. exists d. auto.
Qed.

Lemma merge_cuts_cover_every_interval_witness :
  exists c,
    c ∈ merge_cuts 10000
          [(5000, 5100, "um"); (1150, 1400, "uh"); (1000, 1200, "er")]%string
          50 100
    /\ c.1 <= 1050 /\ 1450 <= c.2.
Proof.
  apply (merge_cuts_cover_every_interval 10000
           [(5000, 5100, "um"); (1150, 1400, "uh"); (1000, 1200, "er")]%string
           50 100 (1150, 1400, "uh"%string)).
  vm_compute. right. left.
Defined.

(** X5: merging never makes more cuts than there are intervals to remove,
    and it makes no cut only when there is nothing to remove. *)
Theorem merge_cuts_count (duration_ms : Z)
    (segments_to_remove : list Detection) (padding_ms start_offset_ms : Z) :
  (length (merge_cuts duration_ms segments_to_remove padding_ms
             start_offset_ms)
   <= length segments_to_remove)%nat
  /\ (merge_cuts duration_ms segments_to_remove padding_ms start_offset_ms = []
      <-> segments_to_remove = []).
Proof.
  unfold merge_cuts.
  destruct (merge_count duration_ms padding_ms start_offset_ms
              (map (fun d : Detection => (d.1.1, d.1.2)) segments_to_remove))
    as [Hlen Hnil].
  rewrite length_map in Hlen. split; [exact Hlen|].
  rewrite Hnil. destruct segments_to_remove; cbn; split; congruence.
Qed.

(** X6: the merged cuts depend neither on the order in which the intervals
    to remove are listed nor on their labels. *)
Theorem merge_cuts_order_independent (duration_ms : Z)
    (segments1 segments2 : list Detection) (padding_ms start_offset_ms : Z) :
  (fun d : Detection => (d.1.1, d.1.2)) <$> segments1
    ≡ₚ (fun d : Detection => (d.1.1, d.1.2)) <$> segments2 ->
  merge_cuts duration_ms segments1 padding_ms start_offset_ms
  = merge_cuts duration_ms segments2 padding_ms start_offset_ms.
Proof.
  intros Hperm. unfold merge_cuts, merge. cbv zeta. f_equal.
  apply sorted_unique.
  - apply (Sorted_merge_sort tuple_le).
  - unfold Py.sorted. now rewrite merge_sort_Permutation.
Qed.

Lemma merge_cuts_order_independent_witness :
  merge_cuts 10000 [(5000, 5100, "um"); (1000, 1200, "er")]%string 50 100
  = merge_cuts 10000
      [(1000, 1200, "STUTTER: so"); (5000, 5100, "uhh")]%string 50 100.
Proof.
  apply merge_cuts_order_independent. cbn. apply Permutation_swap.
Defined.

(** ** The reassembler, continued *)

Section KeptFrames.
Context {Sample : Type}.
Implicit Types seg audio : AudioSegment Sample.









End KeptFrames.

Section CutContent.
Context {Sample : Type} `{!SampleOps Sample}.
Implicit Types original_audio processed_audio : AudioSegment Sample.





End CutContent.


Section BeepContent.
Context {Sample : Type} `{!SampleOps Sample}.
Implicit Types original_audio processed_audio : AudioSegment Sample.







(** X9: in cut mode, if the second merged cut starts less than
    [crossfade_ms] after the first one ends, and the first one does not
    start at 0 (so that some audio is already kept), the crossfade into
    the short span between the two raises [ValueError]: the run fails and
    exports nothing. *)
Theorem crossfade_longer_than_gap_raises original_audio (output_file : string)
    (segments_to_remove : list Detection)
    (padding_ms start_offset_ms crossfade_ms : Z)
    (c1 c2 : Z * Z) (cuts : list (Z * Z)) :
  merge_cuts (len original_audio) segments_to_remove padding_ms
    start_offset_ms = c1 :: c2 :: cuts ->
  0 < c1.1 -> c1.1 <= c1.2 -> c2.1 <= len original_audio ->
  c2.1 - c1.2 < crossfade_ms ->
  process_audio_pydub original_audio output_file segments_to_remove false
    padding_ms start_offset_ms crossfade_ms
  = Raise ValueError.
Proof.
  intros Hmerged Hfirst Hdur Hsecond Hgap.
  assert (Hapart : c1.2 < c2.1).
  { apply (Sorted_lookup apart (c1 :: c2 :: cuts) 0); [|reflexivity..].
    rewrite <- Hmerged. apply merge_apart. }
  assert (Hstep1 :
    cut_step original_audio crossfade_ms (empty, 0) c1
    = Return (getslice original_audio (Some 0) (Some c1.1), c1.2)).
  { unfold cut_step, join.
    replace (0 <? c1.1) with true by (symmetry; apply Z.ltb_lt; lia).
    reflexivity. }
  assert (Hstep2 :
    cut_step original_audio crossfade_ms
      (getslice original_audio (Some 0) (Some c1.1), c1.2) c2
    = Raise ValueError).
  { unfold cut_step, join, append.
    replace (c1.2 <? c2.1) with true by (symmetry; apply Z.ltb_lt; lia).
    rewrite !len_getslice_range by lia.
    replace (0 <? c1.1 - 0) with true by (symmetry; apply Z.ltb_lt; lia).
    replace (0 <? crossfade_ms) with true by (symmetry; apply Z.ltb_lt; lia).
    replace (crossfade_ms =? 0) with false by (symmetry; apply Z.eqb_neq; lia).
    replace (c2.1 - c1.2 <? crossfade_ms) with true
      by (symmetry; apply Z.ltb_lt; lia).
    cbn [andb]. destruct (c1.1 - 0 <? crossfade_ms); reflexivity. }
  unfold process_audio_pydub.
  destruct segments_to_remove as [|d segments]; [discriminate|].
  rewrite Hmerged. cbn [mbind result_bind].
  unfold cut_mode. cbv zeta. cbn [for_each].
  rewrite Hstep1. cbn [mbind result_bind]. rewrite Hstep2. reflexivity.
Qed.

End BeepContent.

Section CutRun.
Context {Sample : Type} `{!SampleOps Sample}.
Implicit Types original_audio processed_audio : AudioSegment Sample.


End CutRun.


Lemma crossfade_longer_than_gap_raises_witness :
  process_audio_pydub (seqZ 0 2000) "talk.wav"
    [(500, 600, "um"); (755, 800, "uh")]%string false 50 100 10
  = Raise ValueError.
Proof.
  apply (crossfade_longer_than_gap_raises (seqZ 0 2000) "talk.wav"
           [(500, 600, "um"); (755, 800, "uh")]%string 50 100 10
           (400, 650) (655, 850) []).
  - vm_compute. reflexivity.
  - cbn. lia.
  - cbn. lia.
  - vm_compute. discriminate.
  - cbn. lia.
Defined.

(** ** Removal of hand-picked words, continued *)

(** *** The decoded selection *)

Lemma selected_indices_loop (items : list json) (ns : list Z) (acc : gset Z) :
  Forall2 (fun v n => int v = Return n) items ns ->
  for_each (fun (acc : gset Z) i => n ← int i; Return ({[n]} ∪ acc))
    acc items
  = Return (list_to_set ns ∪ acc).
Proof.
  intros Hconv. revert acc.
  induction Hconv as [|v n items ns Hv _ IH]; intros acc; cbn [for_each].
  - cbn [list_to_set]. now rewrite union_empty_l_L.
  - rewrite Hv. cbn [mbind result_bind]. rewrite IH. f_equal.
    cbn [list_to_set].
    now rewrite (assoc_L (∪)), (comm_L (∪) (list_to_set ns)).
Qed.

(** X11: a JSON list whose elements all convert with [int()] (integers,
    but also booleans, floats and numeric strings) decodes to the set of
    the converted values: the order of the list and repeated entries make
    no difference. *)
Theorem selected_indices_of_convertible_list (items : list json) (ns : list Z) :
  Forall2 (fun v n => int v = Return n) items ns ->
  selected_indices_of (JList items) = Return (list_to_set ns).
Proof.
  intros Hconv. unfold selected_indices_of. cbn [iterate mbind result_bind].
  rewrite (selected_indices_loop items ns ∅ Hconv).
  now rewrite union_empty_r_L.
Qed.

Lemma selected_indices_of_convertible_list_witness :
  selected_indices_of
    (JList [JInt 3; JStr " 7 "; JBool true; JInt 3;
            JFloat (S754_finite false 15 (-3))])
  = Return (list_to_set [3; 7; 1; 3; 1]).
Proof.
  apply selected_indices_of_convertible_list.
  repeat constructor.
Defined.

(** *** Indices outside the transcript *)

Lemma getitem_out_of_range (transcript : list Word) (i : Z) :
  i < - Z.of_nat (length transcript) \/ Z.of_nat (length transcript) <= i ->
  getitem transcript i = Raise IndexError.
Proof.
  intros Hi. unfold getitem. cbv zeta.
  destruct (i <? 0) eqn:Hneg.
  - apply Z.ltb_lt in Hneg.
    replace (0 <=? i + Z.of_nat (length transcript)) with false
      by (symmetry; apply Z.leb_gt; lia).
    reflexivity.
  - apply Z.ltb_ge in Hneg.
    replace (i <? Z.of_nat (length transcript)) with false
      by (symmetry; apply Z.ltb_ge; lia).
    now rewrite andb_false_r.
Qed.

Lemma getitem_raises_index_error (transcript : list Word) (i : Z) e :
  getitem transcript i = Raise e -> e = IndexError.
Proof.
  unfold getitem. cbv zeta.
  destruct (_ && _); [|now intros [= <-]].
  destruct (transcript !! _); [discriminate|now intros [= <-]].
Qed.

Lemma removed_words_index_error (transcript : list Word) (indices : list Z)
    (acc : list string) (i : Z) :
  i ∈ indices ->
  i < - Z.of_nat (length transcript) \/ Z.of_nat (length transcript) <= i ->
  for_each (fun acc i => w ← getitem transcript i; Return (acc ++ [word w]))
    acc indices
  = Raise IndexError.
Proof.
  intros Hin Hi. revert acc.
  induction indices as [|j indices IH]; intros acc;
    [now apply elem_of_nil in Hin|].
  cbn [for_each].
  destruct (getitem transcript j) as [w|e] eqn:Hj; cbn [mbind result_bind].
  - apply IH. apply elem_of_cons in Hin as [->|Hin]; [|exact Hin].
    rewrite getitem_out_of_range in Hj by exact Hi. discriminate.
  - now rewrite (getitem_raises_index_error _ _ _ Hj).
Qed.

Section IndexError.
Context {Sample : Type}.

(** X12: when the selection holds an index outside the transcript (20 or
    more, or below -20), [process_edited_audio] first writes the output
    file (with the audio as it was loaded) and then raises [IndexError]
    while it builds the log: the error is not reported as a message, and
    the file stays behind. *)
Theorem process_edited_audio_index_out_of_range (path : string) (loaded : json)
    (selected_indices : gset Z)
    (from_file : string -> AudioSegment Sample + string)
    (audio : AudioSegment Sample) (i : Z) :
  selected_indices_of loaded = Return selected_indices ->
  from_file path = inl audio ->
  i ∈ selected_indices ->
  i < -20 \/ 20 <= i ->
  process_edited_audio (Some path) (Return loaded) from_file
  = {| written := [ {| exported := audio;
                       to_file := generate_blank_output_path path "_edited";
                       format := mp3 |} ];
       outcome := Raise IndexError |}.
Proof.
  intros Hsel Hfile Hin Hi. unfold process_edited_audio.
  cbn [mbind result_bind]. rewrite Hsel, Hfile.
  rewrite (edit_audio_unchanged _ _ _ mock_transcript_in_order).
  rewrite (removed_words_index_error MOCK_TRANSCRIPT_DATA
             (elements selected_indices) [] i).
  - reflexivity.
  - now apply elem_of_elements.
  - cbn. lia.
Qed.

End IndexError.

Lemma process_edited_audio_index_out_of_range_witness :
  process_edited_audio (Some "talk.mp3"%string)
    (Return (JList [JInt 1; JInt 20])) (fun _ => inl [10; 11; 12])
  = {| written := [ {| exported := [10; 11; 12];
                       to_file := generate_blank_output_path "talk.mp3" "_edited";
                       format := mp3 |} ];
       outcome := Raise IndexError |}.
Proof.
  apply (process_edited_audio_index_out_of_range "talk.mp3"
           (JList [JInt 1; JInt 20]) (list_to_set [1; 20])
           (fun _ => inl [10; 11; 12]) [10; 11; 12] 20).
  - vm_compute. reflexivity.
  - reflexivity.
  - vm_compute. reflexivity.
  - lia.
Defined.

(** *** The name of the output file *)

Lemma str_app_cons a s1 s2 : String a s1 +:+ s2 = String a (s1 +:+ s2).
Proof. reflexivity. Qed.

Lemma str_app_empty_r s : s +:+ EmptyString = s.
Proof.
  induction s as [|a s IH]; [reflexivity|]. now rewrite str_app_cons, IH.
Qed.

Lemma str_length_app s1 s2 :
  String.length (s1 +:+ s2) = (String.length s1 + String.length s2)%nat.
Proof.
  induction s1 as [|a s1 IH]; [reflexivity|].
  rewrite str_app_cons. cbn [String.length]. now rewrite IH.
Qed.

Lemma rfind_range c s : -1 <= rfind c s < Z.of_nat (String.length s).
Proof.
  induction s as [|a s IH]; cbn [rfind String.length]; [lia|].
  destruct (0 <=? rfind c s) eqn:Hr.
  - apply Z.leb_le in Hr. lia.
  - destruct (Ascii.eqb a c); lia.
Qed.

Lemma substring_nil n m : substring n m EmptyString = EmptyString.
Proof. destruct n, m; reflexivity. Qed.

Lemma substring_all s : substring 0 (String.length s) s = s.
Proof. induction s as [|a s IH]; cbn; [reflexivity|now rewrite IH]. Qed.

Lemma str_from_0 s : str_from 0 s = s.
Proof.
  unfold str_from. change (Z.to_nat 0) with 0%nat.
  rewrite Nat.sub_0_r. apply substring_all.
Qed.

Lemma str_from_cons i a s :
  0 < i -> str_from i (String a s) = str_from (i - 1) s.
Proof.
  intros Hi. unfold str_from.
  replace (Z.to_nat i) with (S (Z.to_nat (i - 1))) by lia. reflexivity.
Qed.

Lemma str_upto_cons i a s :
  0 < i -> str_upto i (String a s) = String a (str_upto (i - 1) s).
Proof.
  intros Hi. unfold str_upto.
  replace (Z.to_nat i) with (S (Z.to_nat (i - 1))) by lia. reflexivity.
Qed.

(** [s[:i] + s[i:]] is [s]. *)
Lemma str_upto_from i s : 0 <= i -> str_upto i s +:+ str_from i s = s.
Proof.
  revert i. induction s as [|a s IH]; intros i Hi.
  - unfold str_upto, str_from. now rewrite !substring_nil.
  - destruct (decide (i = 0)) as [->|Hne].
    + rewrite str_from_0. reflexivity.
    + rewrite str_upto_cons, str_from_cons by lia.
      now rewrite str_app_cons, IH by lia.
Qed.

(** Past the last occurrence of a character, the character does not
    occur. *)
Lemma rfind_str_from c s i :
  rfind c s < i -> 0 <= i -> rfind c (str_from i s) = -1.
Proof.
  revert i. induction s as [|a s IH]; intros i Hlast Hi.
  - unfold str_from. now rewrite substring_nil.
  - destruct (decide (i = 0)) as [->|Hne].
    + rewrite str_from_0. pose proof (rfind_range c (String a s)). lia.
    + rewrite str_from_cons by lia. apply IH; [|lia].
      cbn [rfind] in Hlast. pose proof (rfind_range c s).
      destruct (0 <=? rfind c s) eqn:Hr; [lia|].
      apply Z.leb_gt in Hr. lia.
Qed.

Lemma rfind_cons_none c a s :
  rfind c (String a s) = -1 <-> Ascii.eqb a c = false /\ rfind c s = -1.
Proof.
  cbn [rfind]. pose proof (rfind_range c s).
  destruct (0 <=? rfind c s) eqn:Hr.
  - apply Z.leb_le in Hr. split; [lia|intros [_ ?]; lia].
  - apply Z.leb_gt in Hr.
    destruct (Ascii.eqb a c); split; try lia; discriminate.
Qed.

Lemma rfind_app_none c s1 s2 :
  rfind c (s1 +:+ s2) = -1 <-> rfind c s1 = -1 /\ rfind c s2 = -1.
Proof.
  induction s1 as [|a s1 IH].
  - cbn. tauto.
  - rewrite str_app_cons, !rfind_cons_none, IH. tauto.
Qed.

Lemma rfind_str_upto_none c s i :
  rfind c s = -1 -> rfind c (str_upto i s) = -1.
Proof.
  revert i. induction s as [|a s IH]; intros i Hnone.
  - unfold str_upto. now rewrite substring_nil.
  - destruct (decide (0 < i)) as [Hpos|Hzero].
    + rewrite str_upto_cons by lia. apply rfind_cons_none in Hnone as [Ha Hs].
      apply rfind_cons_none. auto.
    + unfold str_upto. replace (Z.to_nat i) with 0%nat by lia. reflexivity.
Qed.

Lemma basename_no_sep p : rfind "/" (basename p) = -1.
Proof.
  unfold basename. pose proof (rfind_range "/" p).
  apply rfind_str_from; lia.
Qed.

Lemma splitext_join p : (splitext p).1 +:+ (splitext p).2 = p.
Proof.
  unfold splitext. cbv zeta.
  destruct (_ && _) eqn:Hcond; cbn [fst snd].
  - apply andb_true_iff in Hcond as [Hlt _]. apply Z.ltb_lt in Hlt.
    pose proof (rfind_range "/" p). apply str_upto_from. lia.
  - apply str_app_empty_r.
Qed.

Lemma splitext_ext_no_sep p : rfind "/" (splitext p).2 = -1.
Proof.
  unfold splitext. cbv zeta.
  destruct (_ && _) eqn:Hcond; cbn [fst snd]; [|reflexivity].
  apply andb_true_iff in Hcond as [Hlt _]. apply Z.ltb_lt in Hlt.
  pose proof (rfind_range "/" p). apply rfind_str_from; lia.
Qed.

Lemma splitext_base_no_sep p :
  rfind "/" p = -1 -> rfind "/" (splitext p).1 = -1.
Proof.
  intros Hnone. unfold splitext. cbv zeta.
  destruct (_ && _); cbn [fst snd]; [|exact Hnone].
  now apply rfind_str_upto_none.
Qed.

Lemma generate_blank_output_path_parts input_path suffix :
  generate_blank_output_path input_path suffix
  = basename (splitext input_path).1 +:+ suffix +:+ (splitext input_path).2.
Proof.
  unfold generate_blank_output_path. now destruct (splitext input_path).
Qed.

(** X13: for a suffix that is not empty and holds no "/" (the program
    uses "_edited"), the output path holds no "/", so it names a file in
    the working directory, and it differs from the input path: the
    original file is not overwritten. *)
Theorem generate_blank_output_path_fresh_name (input_path suffix : string) :
  suffix <> EmptyString -> rfind "/" suffix = -1 ->
  rfind "/" (generate_blank_output_path input_path suffix) = -1
  /\ generate_blank_output_path input_path suffix <> input_path.
Proof.
  intros Hsuffix Hnone.
  assert (Hbare : rfind "/" (generate_blank_output_path input_path suffix)
                  = -1).
  { rewrite generate_blank_output_path_parts.
    apply rfind_app_none. split; [apply basename_no_sep|].
    apply rfind_app_none. split; [exact Hnone|apply splitext_ext_no_sep]. }
  split; [exact Hbare|]. intros Heq.
  assert (Hpath : rfind "/" input_path = -1) by now rewrite <- Heq.
  rewrite generate_blank_output_path_parts in Heq.
  unfold basename in Heq.
  rewrite (splitext_base_no_sep _ Hpath) in Heq.
  change (-1 + 1) with 0 in Heq. rewrite str_from_0 in Heq.
  rewrite <- (splitext_join input_path) in Heq at 3.
  apply (f_equal String.length) in Heq.
  rewrite !str_length_app in Heq.
  destruct suffix; [congruence|]. cbn [String.length] in Heq. lia.
Qed.

Lemma generate_blank_output_path_fresh_name_witness :
  rfind "/" (generate_blank_output_path "/tmp/gradio/talk.wav" "_edited") = -1
  /\ generate_blank_output_path "/tmp/gradio/talk.wav" "_edited"
     <> "/tmp/gradio/talk.wav"%string.
Proof.
  apply generate_blank_output_path_fresh_name; [discriminate|reflexivity].
Defined.

(** ** Transcription and detection together *)

Lemma lower_char_idempotent c : lower_char (lower_char c) = lower_char c.
Proof. destruct c as [[] [] [] [] [] [] [] []]; reflexivity. Qed.

Lemma lower_idempotent s : lower (lower s) = lower s.
Proof.
  induction s as [|c s IH]; cbn; [reflexivity|].
  now rewrite lower_char_idempotent, IH.
Qed.

(** Every word that [transcribe_audio] hands on is in lower case. *)
Lemma result_segments_lower_case (segments : list WhisperSegment) :
  Forall (fun seg => Forall (fun w => lower (word w) = word w) (words seg))
         (result_segments_of segments).
Proof.
  unfold result_segments_of.
  apply (foldl_invariant
           (Forall (fun seg =>
                      Forall (fun w => lower (word w) = word w) (words seg)))
           (fun _ => True)); [constructor | now apply Forall_true |].
  intros result_segments segment Hacc _.
  apply Forall_app. split; [exact Hacc|]. apply Forall_singleton.
  cbn [words]. destruct (heard_words segment) as [heard_list|]; [|constructor].
  apply (foldl_invariant (Forall (fun w => lower (word w) = word w))
           (fun _ => True)); [constructor | now apply Forall_true |].
  intros ws w Hws _. apply Forall_app. split; [exact Hws|].
  apply Forall_singleton. cbn [word]. apply lower_idempotent.
Qed.

(** X14: on the segments that [transcribe_audio] returns, whatever the
    recognizer heard, [find_stutters] flags exactly the words that the
    stutter rule of the specification flags (normal forms in lower case,
    exclusion before repetition, gap below 200 ms). *)
Theorem find_stutters_on_transcription
    (recognized : list WhisperSegment + string) (segments : list Segment) :
  transcribe_audio recognized = inl segments ->
  find_stutters segments = StutterRule.stutters (all_words_of segments).
Proof.
  destruct recognized as [heard_segments|e]; [|discriminate].
  intros [= <-].
  rewrite find_stutters_neighbours, rule_stutters_neighbours.
  apply (neighbours_ext (fun w => lower (word w) = word w)).
  - rewrite all_words_of_concat. apply Forall_join, Forall_fmap.
    apply result_segments_lower_case.
  - intros a b. apply stutter_of_pair_rule.
Qed.

Lemma find_stutters_on_transcription_witness :
  find_stutters
    [ {| words := [ {| word := "the"; start_ms := 0; end_ms := 300 |};
                    {| word := "the"; start_ms := 310; end_ms := 600 |};
                    {| word := "so"; start_ms := 700; end_ms := 800 |};
                    {| word := "so!"; start_ms := 810; end_ms := 900 |} ] |} ]
  = [(700, 800, "STUTTER: so"%string)].
Proof.
  etransitivity.
  - apply (find_stutters_on_transcription
             (inl [ {| heard_words :=
                         Some [ {| heard := " The"; heard_start_ms := 0;
                                   heard_end_ms := 300 |};
                                {| heard := " the"; heard_start_ms := 310;
                                   heard_end_ms := 600 |};
                                {| heard := " So"; heard_start_ms := 700;
                                   heard_end_ms := 800 |};
                                {| heard := " so!"; heard_start_ms := 810;
                                   heard_end_ms := 900 |} ] |} ])).
    reflexivity.
  - vm_compute. reflexivity.
Defined.

(** ** Filler entries that cannot match *)

Lemma join_if_idempotent keep s :
  join_if keep (join_if keep s) = join_if keep s.
Proof.
  induction s as [|c s IH]; cbn; [reflexivity|].
  destruct (keep c) eqn:Hc; cbn; [rewrite Hc, IH|]; auto.
Qed.

(** X15: [find_fillers] compares the letters and digits of a word with
    the filler list, so an entry that holds any other character (a hyphen,
    a space, an apostrophe) never matches: the detections are those for
    the filler list without such entries.  Of the built-in list, "uh-huh"
    and "um-hum" are such entries. *)
Theorem find_fillers_ignores_entries_with_punctuation
    (segments : list Segment) (filler_list : gset string) :
  find_fillers segments filler_list
  = find_fillers segments
      (filter (fun entry => join_if isalnum entry = entry) filler_list)
  /\ find_fillers segments FILLER_WORDS
     = find_fillers segments
         (list_to_set ["um"; "uh"; "er"; "hmm"; "mhm"; "umm"; "uhh"; "erm";
                       "ooh"]%string).
Proof.
  assert (Hgen : forall fl : gset string,
            find_fillers segments fl
            = find_fillers segments
                (filter (fun entry => join_if isalnum entry = entry) fl)).
  { intros fl. rewrite !find_fillers_words. apply list_bind_ext; [|reflexivity].
    intros w. unfold filler_of_word. cbv zeta.
    destruct (bool_decide (_ ∈ EXCLUSIONS)); [reflexivity|].
    replace (bool_decide
               (join_if isalnum (word w)
                  ∈ filter (fun entry => join_if isalnum entry = entry) fl))
      with (bool_decide (join_if isalnum (word w) ∈ fl)); [reflexivity|].
    apply bool_decide_ext. rewrite elem_of_filter.
    pose proof (join_if_idempotent isalnum (word w)). tauto. }
  split; [apply Hgen|].
  rewrite (Hgen FILLER_WORDS). f_equal.
Qed.

(** ** The Gradio handler *)

Lemma lower_app s1 s2 : lower (s1 +:+ s2) = lower s1 +:+ lower s2.
Proof.
  induction s1 as [|c s1 IH]; [reflexivity|].
  rewrite str_app_cons. cbn [lower]. now rewrite IH, str_app_cons.
Qed.

Lemma length_lower s : String.length (lower s) = String.length s.
Proof. induction s as [|c s IH]; cbn; [reflexivity|now rewrite IH]. Qed.

Lemma substring_app_skip x e n m :
  substring (String.length x + n) m (x +:+ e) = substring n m e.
Proof. induction x as [|c x IH]; [reflexivity|]. cbn. apply IH. Qed.

(** Whether a name ends with a suffix is decided by its last characters. *)
Lemma endswith_app x e t :
  (String.length t <= String.length e)%nat ->
  endswith (x +:+ e) t = endswith e t.
Proof.
  intros Hlen. unfold endswith. cbv zeta. rewrite str_length_app.
  replace (String.length t <=? String.length x + String.length e)%nat
    with true by (symmetry; apply Nat.leb_le; lia).
  replace (String.length t <=? String.length e)%nat
    with true by (symmetry; apply Nat.leb_le; lia).
  replace (String.length x + String.length e - String.length t)%nat
    with (String.length x + (String.length e - String.length t))%nat by lia.
  now rewrite substring_app_skip.
Qed.

Lemma str_snoc_cases x :
  x = EmptyString \/ exists x0 c, x = x0 +:+ String c EmptyString.
Proof.
  induction x as [|a x IH]; [now left|right].
  destruct IH as [->|(x0 & c & ->)].
  - exists EmptyString, a. reflexivity.
  - exists (String a x0), c. reflexivity.
Qed.

Lemma str_app_assoc s1 s2 s3 : (s1 +:+ s2) +:+ s3 = s1 +:+ (s2 +:+ s3).
Proof.
  induction s1 as [|a s1 IH]; [reflexivity|]. now rewrite !str_app_cons, IH.
Qed.

(** A name that ends with ".wav" or ".mp3" does not end with ".flac". *)
Lemma endswith_flac_short x e :
  e = ".wav"%string \/ e = ".mp3"%string ->
  endswith (x +:+ e) ".flac" = false.
Proof.
  intros He. destruct (str_snoc_cases x) as [->|(x0 & c & ->)].
  - destruct He as [-> | ->]; reflexivity.
  - rewrite str_app_assoc, str_app_cons. change (EmptyString +:+ e) with e.
    rewrite endswith_app by (destruct He as [-> | ->]; cbn; lia).
    destruct He as [-> | ->]; unfold endswith; cbn;
      destruct (Ascii.eqb c "."); reflexivity.
Qed.

(** The format that the extension of the uploaded file stands for. *)
Lemma out_format_of_output_file (tmp_stem audio : string) :
  out_format_of (tmp_stem +:+ out_ext_of audio)
  = if bool_decide (lower (splitext audio).2 = ".flac"%string) then flac
    else if bool_decide (lower (splitext audio).2 = ".wav"%string) then wav
    else mp3.
Proof.
  unfold out_ext_of, out_format_of. cbv zeta.
  set (in_ext := lower (splitext audio).2).
  destruct (bool_decide (in_ext ∈ [".flac"; ".wav"; ".mp3"]%string)) eqn:Hin.
  - apply bool_decide_eq_true in Hin.
    rewrite !elem_of_cons, elem_of_nil in Hin.
    rewrite lower_app.
    destruct Hin as [-> | [-> | [-> | []]]].
    + rewrite endswith_app by (cbn; lia). reflexivity.
    + rewrite endswith_flac_short by (cbn; auto).
      rewrite endswith_app by (cbn; lia). reflexivity.
    + rewrite endswith_flac_short by (cbn; auto).
      rewrite endswith_app by (cbn; lia). reflexivity.
  - apply bool_decide_eq_false in Hin.
    rewrite !elem_of_cons, elem_of_nil in Hin.
    rewrite lower_app, endswith_flac_short by (cbn; auto).
    rewrite endswith_app by (cbn; lia).
    rewrite !bool_decide_eq_false_2 by tauto. reflexivity.
Qed.

Section HandlerFacts.
Context {Sample : Type} `{!SampleOps Sample}.

(** X16: every file that [process_gradio] exports goes to the temporary
    file, whose name ends with the extension chosen on lines 164-165, and
    is encoded in the format of the uploaded file: FLAC for ".flac", WAV
    for ".wav" (in any mix of upper and lower case), and MP3 for every
    other name. *)
Theorem process_gradio_export_follows_upload (audio : string)
    (recognized : list WhisperSegment + string)
    (from_file : string -> AudioSegment Sample + string)
    (tmp_stem : string) (str_exn : exn -> string)
    (pad lookback crossfade : Z) (custom_words : string) (debug_mode : bool)
    (file : Export Sample) :
  file ∈ exports (process_gradio (Some audio) recognized from_file tmp_stem
                    str_exn pad lookback crossfade custom_words debug_mode) ->
  to_file file = tmp_stem +:+ out_ext_of audio
  /\ format file
     = if bool_decide (lower (splitext audio).2 = ".flac"%string) then flac
       else if bool_decide (lower (splitext audio).2 = ".wav"%string) then wav
       else mp3.
Proof.
  unfold process_gradio. destruct audio as [|c audio'];
    [intros []%elem_of_nil|].
  set (audio := String c audio'). cbv zeta.
  destruct (transcribe_audio recognized) as [segments|e];
    [|intros []%elem_of_nil].
  destruct (find_fillers segments (fillers_list_of custom_words)
            ++ find_stutters segments) as [|d detected] eqn:Hdetected;
    [intros []%elem_of_nil|].
  destruct (from_file audio) as [original_audio|e]; [|intros []%elem_of_nil].
  destruct (process_audio_pydub original_audio _ (d :: detected) debug_mode
              pad lookback crossfade) as [exported_file|e] eqn:Hrun;
    [|intros []%elem_of_nil].
  cbn [exports]. intros ->%list_elem_of_singleton.
  unfold process_audio_pydub in Hrun.
  destruct (if debug_mode then _ else _) as [processed|e];
    cbn [mbind result_bind] in Hrun; [|discriminate].
  injection Hrun as <-. cbn [to_file format].
  split; [reflexivity|]. apply out_format_of_output_file.
Qed.

End HandlerFacts.

Lemma process_gradio_export_follows_upload_witness :
  let file :=
    {| exported := [10; 11; 14; 16; 17; 18; 19];
       to_file := "/tmp/tmpk3_x9a.wav"; format := wav |} in
  to_file file = ("/tmp/tmpk3_x9a" +:+ out_ext_of "uploads/Talk.WAV")%string
  /\ format file
     = if bool_decide (lower (splitext "uploads/Talk.WAV").2 = ".flac"%string)
       then flac
       else if bool_decide (lower (splitext "uploads/Talk.WAV").2
                            = ".wav"%string)
            then wav else mp3.
Proof.
  apply (process_gradio_export_follows_upload "uploads/Talk.WAV"
           (inl [ {| heard_words :=
                       Some [ {| heard := " Um,"; heard_start_ms := 2;
                                 heard_end_ms := 4 |};
                              {| heard := " so"; heard_start_ms := 5;
                                 heard_end_ms := 6 |};
                              {| heard := " So"; heard_start_ms := 6;
                                 heard_end_ms := 7 |} ] |} ])
           (fun _ => inl [10; 11; 12; 13; 14; 15; 16; 17; 18; 19])
           "/tmp/tmpk3_x9a" (fun _ => "ValueError"%string) 0 0 0 "" false).
  vm_compute. left.
Defined.

(** ** Merging and cutting together *)

Lemma outside_app cuts1 cuts2 i :
  outside (cuts1 ++ cuts2) i = outside cuts1 i && outside cuts2 i.
Proof. apply forallb_app. Qed.

Lemma outside_Permutation cuts1 cuts2 i :
  cuts1 ≡ₚ cuts2 -> outside cuts1 i = outside cuts2 i.
Proof.
  induction 1 as [|c l1 l2 _ IH|c1 c2 l|l1 l2 l3 _ IH1 _ IH2];
    cbn [outside forallb].
  - reflexivity.
  - fold (outside l1 i) (outside l2 i). now rewrite IH.
  - fold (outside l i). now rewrite !andb_assoc, (andb_comm (negb _) (negb _)).
  - congruence.
Qed.

(** A cut that is extended by an interval starting inside it (or at its
    end) spans the milliseconds of the two, and no others. *)
Lemma extended_cut_exact (p1 p2 s e i : Z) :
  p1 <= s -> s <= p2 ->
  negb ((p1 <=? i) && (i <? Z.max p2 e))
  = negb ((p1 <=? i) && (i <? p2)) && negb ((s <=? i) && (i <? e)).
Proof.
  intros Hstart Htouch.
  destruct (Z.leb_spec p1 i), (Z.ltb_spec i (Z.max p2 e)),
    (Z.ltb_spec i p2), (Z.leb_spec s i), (Z.ltb_spec i e);
    cbn; try reflexivity; lia.
Qed.

Section MergeExact.
Variables duration_ms padding_ms start_offset_ms : Z.

Lemma merge_step_exact merged_cuts seg i :
  (forall c, c ∈ merged_cuts ->
     c.1 <= (widened duration_ms padding_ms start_offset_ms seg).1) ->
  outside (merge_step duration_ms padding_ms start_offset_ms merged_cuts seg) i
  = outside merged_cuts i
    && outside [widened duration_ms padding_ms start_offset_ms seg] i.
Proof.
  destruct merged_cuts as [|prev pre _] using rev_ind; intros Hstarts.
  - rewrite merge_step_nil. reflexivity.
  - rewrite merge_step_snoc. cbv zeta.
    assert (Hprev : prev.1
              <= (widened duration_ms padding_ms start_offset_ms seg).1).
    { apply Hstarts, elem_of_app. right. constructor. }
    destruct (_ <=? prev.2) eqn:Hle.
    + apply Z.leb_le in Hle. rewrite !outside_app, <- andb_assoc. f_equal.
      cbn [outside forallb fst snd]. rewrite !andb_true_r.
      now apply extended_cut_exact.
    + change [prev; widened duration_ms padding_ms start_offset_ms seg]
        with ([prev] ++ [widened duration_ms padding_ms start_offset_ms seg]).
      now rewrite app_assoc, (outside_app (pre ++ [prev])).
Qed.

Lemma merge_loop_exact (intervals merged_cuts : list (Z * Z)) i :
  StronglySorted tuple_le intervals ->
  (forall c x, c ∈ merged_cuts -> x ∈ intervals ->
     c.1 <= (widened duration_ms padding_ms start_offset_ms x).1) ->
  outside (foldl (merge_step duration_ms padding_ms start_offset_ms)
             merged_cuts intervals) i
  = outside merged_cuts i
    && outside (widened duration_ms padding_ms start_offset_ms <$> intervals) i.
Proof.
  intros Hsorted. revert merged_cuts.
  induction Hsorted as [|x rest Hsorted IH Hx]; intros merged_cuts Hstarts.
  - cbn. now rewrite andb_true_r.
  - cbn [foldl]. rewrite IH.
    + rewrite merge_step_exact
        by (intros c Hc; apply Hstarts; [exact Hc|constructor]).
      rewrite <- andb_assoc. f_equal.
      unfold outside. cbn [fmap list_fmap forallb]. now rewrite andb_true_r.
    + intros c y Hc Hy.
      apply (merge_step_starts duration_ms padding_ms start_offset_ms
               merged_cuts x); [| |exact Hc].
      * intros c' Hc'. apply Hstarts; [exact Hc'|now constructor].
      * apply widened_start_mono. rewrite Forall_forall in Hx. now apply Hx.
Qed.

Lemma merge_exact (intervals : list (Z * Z)) i :
  outside (merge duration_ms padding_ms start_offset_ms intervals) i
  = outside (widened duration_ms padding_ms start_offset_ms <$> intervals) i.
Proof.
  unfold merge. cbv zeta. rewrite merge_loop_exact.
  - cbn [outside forallb andb]. apply outside_Permutation.
    apply fmap_Permutation. unfold Py.sorted. apply merge_sort_Permutation.
  - apply (StronglySorted_merge_sort tuple_le).
  - intros c y Hc. now apply elem_of_nil in Hc.
Qed.

End MergeExact.

Lemma merge_cuts_points (duration_ms : Z)
    (segments_to_remove : list Detection) (padding_ms start_offset_ms : Z)
    (i : Z) :
  outside (merge_cuts duration_ms segments_to_remove padding_ms
             start_offset_ms) i
  = outside ((fun d : Detection =>
                (Z.max 0 (d.1.1 - start_offset_ms),
                 Z.min duration_ms (d.1.2 + padding_ms)))
             <$> segments_to_remove) i.
Proof.
  unfold merge_cuts. rewrite merge_exact. f_equal.
  rewrite <- list_fmap_compose. reflexivity.
Qed.

(** X17: the merged cuts span exactly the milliseconds of the intervals to
    remove, each widened by the lookback and the padding and kept inside
    the audio as on lines 117-118: a millisecond lies in a merged cut if
    and only if it lies in one of the widened intervals.  Merging cuts
    nothing more and nothing less. *)
Theorem merge_cuts_exact (duration_ms : Z)
    (segments_to_remove : list Detection) (padding_ms start_offset_ms : Z)
    (i : Z) :
  outside (merge_cuts duration_ms segments_to_remove padding_ms
             start_offset_ms) i
  = outside ((fun d : Detection =>
                (Z.max 0 (d.1.1 - start_offset_ms),
                 Z.min duration_ms (d.1.2 + padding_ms)))
             <$> segments_to_remove) i.
Proof. apply merge_cuts_points. Qed.

Section CutRunExact.
Context {Sample : Type} `{!SampleOps Sample}.
Implicit Types original_audio : AudioSegment Sample.


End CutRunExact.


(** ** Runs of repeated words *)

Lemma stutter_of_pair_repeat (a b : Word) :
  clean_stutter a = clean_stutter b -> clean_stutter a <> EmptyString ->
  clean_stutter a ∉ EXCLUSIONS -> start_ms b - end_ms a < 200 ->
  stutter_of_pair a b
  = [(start_ms a, end_ms a, "STUTTER: " +:+ clean_stutter a)].
Proof.
  intros Heq Hne Hex Hgap. unfold stutter_of_pair. cbv zeta.
  rewrite (bool_decide_eq_false_2 _ Hex), <- Heq, String.eqb_refl.
  replace (start_ms b - end_ms a <? 200) with true
    by (symmetry; now apply Z.ltb_lt).
  destruct (clean_stutter a); [congruence|reflexivity].
Qed.

(** X18: when a word is said several times in a row (every word of the
    transcript has the same non-empty, not excluded normal form as the
    next and the next starts less than 200 ms after it ends),
    [find_stutters] flags every word but the last, so that one occurrence
    stays. *)
Theorem find_stutters_keeps_last_of_run (segments : list Segment) :
  Sorted (fun a b =>
            clean_stutter a = clean_stutter b
            /\ clean_stutter a <> EmptyString
            /\ (clean_stutter a ∉ EXCLUSIONS)
            /\ start_ms b - end_ms a < 200)
         (all_words_of segments) ->
  (fun d : Detection => (d.1.1, d.1.2)) <$> find_stutters segments
  = (fun w => (start_ms w, end_ms w)) <$> removelast (all_words_of segments).
Proof.
  rewrite find_stutters_neighbours.
  generalize (all_words_of segments) as ws. intros ws Hrun.
  induction Hrun as [|a ws Hrun IH Hhd]; [reflexivity|].
  destruct Hhd as [|b t (Heq & Hne & Hex & Hgap)]; [reflexivity|].
  change (neighbours stutter_of_pair (a :: b :: t))
    with (stutter_of_pair a b ++ neighbours stutter_of_pair (b :: t)).
  rewrite (stutter_of_pair_repeat a b Heq Hne Hex Hgap).
  change (removelast (a :: b :: t)) with (a :: removelast (b :: t)).
  cbn [app fmap list_fmap fst snd]. f_equal. exact IH.
Qed.

Lemma find_stutters_keeps_last_of_run_witness :
  (fun d : Detection => (d.1.1, d.1.2))
    <$> find_stutters
          [ {| words := [ {| word := "i"; start_ms := 0; end_ms := 90 |};
                          {| word := "i,"; start_ms := 100; end_ms := 190 |} ] |};
            {| words := [ {| word := "i"; start_ms := 200; end_ms := 300 |} ] |} ]
  = [(0, 90); (100, 190)].
Proof.
  apply (find_stutters_keeps_last_of_run
           [ {| words := [ {| word := "i"; start_ms := 0; end_ms := 90 |};
                           {| word := "i,"; start_ms := 100; end_ms := 190 |} ] |};
             {| words := [ {| word := "i"; start_ms := 200; end_ms := 300 |} ] |} ]).
  repeat constructor; try (vm_compute; discriminate); try reflexivity.
  all: apply bool_decide_eq_false_1; vm_compute; reflexivity.
Defined.

(** ** Custom words *)

Lemma endswith_char s c :
  endswith s (String c EmptyString) = true ->
  exists pre, s = pre +:+ String c EmptyString.
Proof.
  destruct (str_snoc_cases s) as [->|(pre & c' & ->)]; [discriminate|].
  rewrite endswith_app by (cbn; lia).
  unfold endswith. cbn.
  destruct (Ascii.eqb_spec c' c) as [->|]; [|discriminate].
  intros _. now exists pre.
Qed.

Lemma list_ascii_of_string_app s1 s2 :
  list_ascii_of_string (s1 +:+ s2)
  = list_ascii_of_string s1 ++ list_ascii_of_string s2.
Proof.
  induction s1 as [|a s1 IH]; [reflexivity|].
  rewrite str_app_cons. cbn. now rewrite IH.
Qed.

Lemma lstrip_snoc l c :
  isspace c = false -> exists l', lstrip (l ++ [c]) = l' ++ [c].
Proof.
  intros Hc. induction l as [|x l IH]; cbn.
  - rewrite Hc. now exists [].
  - destruct (isspace x); [exact IH|]. now exists (x :: l).
Qed.

(** A string that ends with a character other than white space is not
    stripped to nothing. *)
Lemma strip_snoc_truthy pre c :
  isspace c = false -> truthy (strip (pre +:+ String c EmptyString)) = true.
Proof.
  intros Hc. unfold strip. rewrite list_ascii_of_string_app.
  cbn [list_ascii_of_string].
  destruct (lstrip_snoc (list_ascii_of_string pre) c Hc) as (l' & ->).
  rewrite rev_app_distr. cbn [rev app lstrip]. rewrite Hc.
  cbn [rev]. rewrite rev_involutive.
  destruct l'; reflexivity.
Qed.

(** Splitting at a separator that comes last leaves an empty last piece. *)
Lemma split_trailing_sep sep pre :
  exists piece pieces,
    split sep (pre +:+ String sep EmptyString) = piece :: pieces
    /\ EmptyString ∈ pieces.
Proof.
  induction pre as [|c pre (piece & pieces & Hsplit & Hin)].
  - exists EmptyString, [EmptyString].
    change (EmptyString +:+ String sep EmptyString)
      with (String sep EmptyString).
    cbn [split]. rewrite Ascii.eqb_refl.
    split; [reflexivity|constructor].
  - rewrite str_app_cons. cbn [split]. rewrite Hsplit.
    destruct (Ascii.eqb c sep).
    + exists EmptyString, (piece :: pieces). split; [reflexivity|].
      now constructor.
    + exists (String c piece), pieces. auto.
Qed.

(** X19: when the custom word list ends with a comma, the empty word is
    one of its entries, and [find_fillers] then detects every word of the
    transcript that holds no letter and no digit (a dash, an ellipsis),
    with an empty label. *)
Theorem trailing_comma_flags_punctuation (custom_words : string)
    (segments : list Segment) (w : Word) :
  endswith custom_words "," = true ->
  w ∈ all_words_of segments ->
  join_if isalnum (word w) = EmptyString ->
  (start_ms w, end_ms w, EmptyString)
    ∈ find_fillers segments (fillers_list_of custom_words).
Proof.
  intros (pre & ->)%endswith_char Hw Hclean.
  assert (Hentry : EmptyString ∈ fillers_list_of (pre +:+ ",")).
  { unfold fillers_list_of.
    rewrite strip_snoc_truthy by reflexivity.
    destruct (split_trailing_sep "," pre) as (piece & pieces & -> & Hin).
    apply elem_of_list_to_set, list_elem_of_fmap.
    exists EmptyString. split; [reflexivity|]. now constructor. }
  rewrite find_fillers_words. apply list_elem_of_bind.
  exists w. split; [|exact Hw].
  unfold filler_of_word. cbv zeta. rewrite Hclean.
  rewrite (bool_decide_eq_true_2 _ Hentry).
  replace (bool_decide (EmptyString ∈ EXCLUSIONS)) with false
    by (vm_compute; reflexivity).
  constructor.
Qed.

Lemma trailing_comma_flags_punctuation_witness :
  (500, 600, EmptyString)
    ∈ find_fillers
        [ {| words := [ {| word := "well"; start_ms := 0; end_ms := 400 |};
                        {| word := "..."; start_ms := 500; end_ms := 600 |} ] |} ]
        (fillers_list_of "like, you know,").
Proof.
  apply (trailing_comma_flags_punctuation "like, you know,"
           [ {| words := [ {| word := "well"; start_ms := 0; end_ms := 400 |};
                           {| word := "..."; start_ms := 500;
                              end_ms := 600 |} ] |} ]
           {| word := "..."; start_ms := 500; end_ms := 600 |}).
  - reflexivity.
  - vm_compute. right. left.
  - reflexivity.
Defined.
